(** * Splitting a commit and cascading the rewrite (jj: [cmd_split])

    Shallow embedding of [cli/src/commands/split.rs] and
    [cli/src/commands/git/colocate.rs].  The jj_lib services that the
    command calls (tree merge, commit writing, the descendant cascade) are
    not part of the sources at hand; they are modelled from the
    specification and marked so in their doc comments. *)

From Stdlib Require Import Ascii String.
From stdpp Require Import base gmap strings list pretty.

Module Tree.

(** A path of a tree holds nothing, a file, or a recorded conflict. *)
Inductive TreeValue :=
| Absent
| File (contents : string)
| Conflict (side1 side2 base : TreeValue).

#[global] Instance TreeValue_eq_dec : EqDecision TreeValue.
Proof. solve_decision. Defined.

(** A tree is the map from paths to what they hold; equal content means
    equal id (content addressing). *)
Abbreviation Tree := (gmap string TreeValue).

Definition get (t : Tree) (p : string) : TreeValue := from_option id Absent (t !! p).

Definition value_opt (v : TreeValue) : option TreeValue :=
  match v with Absent => None | _ => Some v end.

(** Modelled from the spec: the per-path rule of the three-way merge
    (spec 3, Tree): one side differs from the base, that side wins; both
    differ alike, that value wins; otherwise a conflict is recorded. *)
Definition merge_value (a b base : TreeValue) : TreeValue :=
  if decide (a = base) then b
  else if decide (b = base) then a
  else if decide (a = b) then a
  else Conflict a b base.

Definition merge3 (side1 side2 base : Tree) : Tree :=
  merge (fun (ab : option (option TreeValue * option TreeValue)) (c : option TreeValue) =>
           value_opt (merge_value (from_option id Absent (ab ≫= fst))
                                  (from_option id Absent (ab ≫= snd))
                                  (from_option id Absent c)))
        (merge (fun x y => Some (x, y)) side1 side2) base.

(** Modelled from the spec: jj_lib's [MergedTree::merge(&self, base, other)]
    merges [self] and [other] against [base]. *)
Definition MergedTree_merge (self base other : Tree) : Tree := merge3 self other base.

End Tree.
Import Tree.

Module Split.

Definition CommitId := nat.
Definition ChangeId := nat.
Definition WorkspaceId := string.

Record Commit := mkCommit {
  commit_id : CommitId;
  parent_ids : list CommitId;
  tree : Tree;
  change_id : ChangeId;
  description : string
}.

(** The repository as a view: commits in write order (parents before
    children) and the working-copy commit of each workspace. *)
Record Repo := mkRepo {
  commits : list Commit;
  wc_commit_ids : gmap WorkspaceId CommitId
}.

Definition get_commit (cs : list Commit) (id : CommitId) : option Commit :=
  List.find (fun c => bool_decide (commit_id c = id)) cs.

(** Modelled from the spec: the tree implied by the first parent
    (spec 3, [is_empty]); the root has the empty tree as parent tree. *)
Definition parent_tree (cs : list Commit) (c : Commit) : Tree :=
  match parent_ids c with
  | [] => ∅
  | p :: _ => from_option tree ∅ (get_commit cs p)
  end.

Definition is_empty (cs : list Commit) (c : Commit) : bool :=
  bool_decide (tree c = parent_tree cs c).

(** What the command shows the user, and the rewrite records it registers. *)
Inductive Event :=
| Warning (msg : string)
| Prompt (instructions : string)
| RecordRewrite (old new : CommitId)
| TransformStart
| Status (msg : string).

(** A transaction: the base repo it started from and the mutable state. *)
Record Tx := mkTx {
  tx_base : Repo;
  tx_commits : list Commit;
  tx_wc : gmap WorkspaceId CommitId;
  tx_mapping : gmap CommitId CommitId;
  tx_trace : list Event
}.

Definition start_transaction (r : Repo) : Tx :=
  mkTx r (commits r) (wc_commit_ids r) ∅ [].

Definition finish (tx : Tx) : Repo := mkRepo (tx_commits tx) (tx_wc tx).

Definition emit (e : Event) (tx : Tx) : Tx :=
  mkTx (tx_base tx) (tx_commits tx) (tx_wc tx) (tx_mapping tx) (tx_trace tx ++ [e]).

(** [MutableRepo::set_rewritten_commit]. *)
Definition set_rewritten_commit (old new : CommitId) (tx : Tx) : Tx :=
  mkTx (tx_base tx) (tx_commits tx) (tx_wc tx) (<[old := new]> (tx_mapping tx))
       (tx_trace tx ++ [RecordRewrite old new]).

Definition max_id (cs : list Commit) : nat := foldr max 0 (map commit_id cs).

(** Modelled from the spec: a written commit gets an id no commit of the
    store has (ids are content hashes there). *)
Definition next_commit_id (cs : list Commit) : CommitId := S (max_id cs).

(** Modelled from the spec: a freshly minted change identity, distinct from
    every change identity in the store. *)
Definition generate_new_change_id (cs : list Commit) : ChangeId :=
  S (foldr max 0 (map change_id cs)).

(** Modelled from the spec: writing a rewrite of [source] stores the new
    commit and, when the change identity is kept, registers the rewrite
    record [source -> new] (jj_lib's [DetachedCommitBuilder::write]). *)
Definition write_commit (source : Commit) (parents : list CommitId) (t : Tree)
    (chg : ChangeId) (desc : string) (tx : Tx) : Commit * Tx :=
  let c := mkCommit (next_commit_id (tx_commits tx)) parents t chg desc in
  let tx := mkTx (tx_base tx) (tx_commits tx ++ [c]) (tx_wc tx) (tx_mapping tx) (tx_trace tx) in
  if decide (chg = change_id source) then (c, set_rewritten_commit (commit_id source) (commit_id c) tx)
  else (c, tx).

(** ** The descendant cascade *)

(** [CommitRewriter]: the commit being rebased and the parents it gets. *)
Record CommitRewriter := mkRewriter {
  old_commit : Commit;
  new_parents : list CommitId
}.

(** Modelled from the spec: a parent that appears as a key of the rewrite
    record is replaced by what it was rewritten to. *)
Definition resolve (mapping : gmap CommitId CommitId) (ids : list CommitId) : list CommitId :=
  map (fun p => default p (mapping !! p)) ids.

(** Keep the first occurrence of each id ([retain] with a seen set). *)
Fixpoint retain_unique (seen : list CommitId) (ps : list CommitId) : list CommitId :=
  match ps with
  | [] => []
  | p :: ps' =>
      if decide (p ∈ seen) then retain_unique seen ps'
      else p :: retain_unique (p :: seen) ps'
  end.

Fixpoint splice_first (old : CommitId) (news ps : list CommitId) : list CommitId :=
  match ps with
  | [] => []
  | p :: ps' => if decide (p = old) then news ++ ps' else p :: splice_first old news ps'
  end.

(** Modelled from the spec: [CommitRewriter::replace_parent] replaces the
    parent [old] by the list [news] (a 1-to-many edge), then drops repeats. *)
Definition replace_parent (old : CommitId) (news : list CommitId) (rw : CommitRewriter)
    : CommitRewriter :=
  if decide (old ∈ new_parents rw)
  then mkRewriter (old_commit rw) (retain_unique [] (splice_first old news (new_parents rw)))
  else rw.

(** Modelled from the spec: [rewriter.rebase()?.write()]: the commit keeps
    its change identity, gets its new parents, and its tree is re-merged
    when the parent tree changes. *)
Definition rebase_write (rw : CommitRewriter) (tx : Tx) : Commit * Tx :=
  let c := old_commit rw in
  let old_base := parent_tree (tx_commits tx) c in
  let new_base :=
    match new_parents rw with
    | [] => ∅
    | p :: _ => from_option tree ∅ (get_commit (tx_commits tx) p)
    end in
  let t := if decide (new_base = old_base) then tree c
           else MergedTree_merge new_base old_base (tree c) in
  write_commit c (new_parents rw) t (change_id c) (description c) tx.

(** The descendants of [roots], in write order (parents before children). *)
Fixpoint descendants_from (roots : list CommitId) (cs : list Commit) : list Commit :=
  match cs with
  | [] => []
  | c :: cs' =>
      if bool_decide (Exists (fun p => p ∈ roots) (parent_ids c))
      then c :: descendants_from (commit_id c :: roots) cs'
      else descendants_from roots cs'
  end.

Fixpoint transform_loop {A} (callback : A -> CommitRewriter -> Tx -> A * Tx)
    (ds : list Commit) (acc : A) (tx : Tx) : A * Tx :=
  match ds with
  | [] => (acc, tx)
  | c :: ds' =>
      let rw := mkRewriter c (resolve (tx_mapping tx) (parent_ids c)) in
      let '(acc, tx) := callback acc rw tx in
      transform_loop callback ds' acc tx
  end.

(** Modelled from the spec: working-copy pointers on rewritten commits
    follow the rewrite (the cascade repairs workspace pointers). *)
Definition update_rewritten_references (tx : Tx) : Tx :=
  mkTx (tx_base tx) (tx_commits tx)
       ((fun w => default w (tx_mapping tx !! w)) <$> tx_wc tx)
       (tx_mapping tx) (tx_trace tx).

(** Modelled from the spec: [MutableRepo::transform_descendants] visits
    every descendant of [roots] once, parents first, hands the callback a
    rewriter whose parents went through the rewrite record, then repairs
    the references. *)
Definition transform_descendants {A} (roots : list CommitId)
    (callback : A -> CommitRewriter -> Tx -> A * Tx) (acc : A) (tx : Tx) : A * Tx :=
  let tx := emit TransformStart tx in
  let ds := descendants_from roots (tx_commits tx) in
  let '(acc, tx) := transform_loop callback ds acc tx in
  (acc, update_rewritten_references tx).

(** [MutableRepo::edit]: make [c] the working-copy commit of [ws]. *)
Definition edit (ws : WorkspaceId) (c : CommitId) (tx : Tx) : Tx :=
  mkTx (tx_base tx) (tx_commits tx) (<[ws := c]> (tx_wc tx)) (tx_mapping tx) (tx_trace tx).

(** ** The command *)

Record SplitArgs := mkSplitArgs {
  revision : CommitId;
  parallel : bool
}.

(** What the command receives from outside: the diff selector, the text
    editor, the settings and the immutability policy. *)
Record Env := mkEnv {
  select : Tree -> Tree -> Tree;
  edit_description : string -> string -> string;
  default_description : string;
  legacy_bookmark_behavior : bool;
  is_immutable : CommitId -> bool
}.

Inductive CommandError :=
| RevisionNotFound
| CommitImmutable (id : CommitId)
| UserErrorWithHint (msg hint : string).

Inductive Result (A E : Type) := Ok (a : A) | Err (e : E).
Arguments Ok {A E} a.
Arguments Err {A E} e.

Definition first_instructions : string := "Enter a description for the first commit.".
Definition second_instructions : string := "Enter a description for the second commit.".
Definition empty_commit_hint : string :=
  "Use `jj new` if you want to create another empty commit.".
Definition all_selected_warning : string :=
  "All changes have been selected, so the second commit will be empty".
Definition none_selected_warning : string :=
  "No changes have been selected, so the first commit will be empty".

(** The closure passed to [transform_descendants]. *)
Definition split_callback (parallel legacy : bool) (first second : CommitId)
    (num_rebased : nat) (rw : CommitRewriter) (tx : Tx) : nat * Tx :=
  let num_rebased := S num_rebased in
  let rw := if parallel && legacy then replace_parent second [first; second] rw
            else if parallel then replace_parent first [first; second] rw
            else replace_parent first [second] rw in
  (num_rebased, snd (rebase_write rw tx)).

(** The loop over the workspaces of the base repo. *)
Definition redirect_working_copies (target second : CommitId) (tx : Tx) : Tx :=
  map_fold (fun ws wc tx => if decide (wc = target) then edit ws second tx else tx)
           tx (wc_commit_ids (tx_base tx)).

(** [cmd_split]: the result carries what the command prints on success
    (first part, second part, number of rebased descendants), the repo after
    the command, and what the command showed. *)
Definition cmd_split (env : Env) (args : SplitArgs) (repo : Repo)
    : Result (Commit * Commit * nat) CommandError * Repo * list Event :=
  match get_commit (commits repo) (revision args) with
  | None => (Err RevisionNotFound, repo, [])
  | Some target_commit =>
  if is_empty (commits repo) target_commit then
    (Err (UserErrorWithHint
            ("Refusing to split empty commit " +:+ pretty (commit_id target_commit) +:+ ".")
            empty_commit_hint), repo, [])
  else if is_immutable env (commit_id target_commit) then
    (Err (CommitImmutable (commit_id target_commit)), repo, [])
  else
  let tx := start_transaction repo in
  let end_tree := tree target_commit in
  let base_tree := parent_tree (tx_commits tx) target_commit in
  let selected_tree := select env base_tree end_tree in
  let tx := if decide (selected_tree = tree target_commit) then emit (Warning all_selected_warning) tx
            else if decide (selected_tree = base_tree) then emit (Warning none_selected_warning) tx
            else tx in
  (* the first commit: the selected changes *)
  let desc1 := if decide (description target_commit = "") then default_description env
               else description target_commit in
  let tx := emit (Prompt first_instructions) tx in
  let desc1 := edit_description env first_instructions desc1 in
  let '(first_commit, tx) :=
    write_commit target_commit (parent_ids target_commit) selected_tree
                 (change_id target_commit) desc1 tx in
  (* the second commit: everything the user did not select *)
  let new_tree := if parallel args then MergedTree_merge end_tree selected_tree base_tree
                  else end_tree in
  let parents := if parallel args then parent_ids target_commit
                 else [commit_id first_commit] in
  let new_change_id := generate_new_change_id (tx_commits tx) in
  let '(desc2, tx) :=
    if decide (description target_commit = "") then ("", tx)
    else (edit_description env second_instructions (description target_commit),
          emit (Prompt second_instructions) tx) in
  let '(second_commit, tx) :=
    write_commit target_commit parents new_tree new_change_id desc2 tx in
  let legacy := legacy_bookmark_behavior env in
  let tx := if legacy then set_rewritten_commit (commit_id target_commit) (commit_id second_commit) tx
            else tx in
  let '(num_rebased, tx) :=
    transform_descendants [commit_id target_commit]
      (split_callback (parallel args) legacy (commit_id first_commit) (commit_id second_commit))
      0 tx in
  let tx := redirect_working_copies (commit_id target_commit) (commit_id second_commit) tx in
  let tx := if decide (0 < num_rebased)
            then emit (Status ("Rebased " +:+ pretty num_rebased +:+ " descendant commits")) tx
            else tx in
  (Ok (first_commit, second_commit, num_rebased), finish tx, tx_trace tx)
  end.

(** The store invariant the cascade relies on (spec 9): commits are in
    write order, so every parent was written before its child; commit ids
    are distinct; a commit lists a parent once; working copies point at
    commits of the repository. *)
Fixpoint topo_ok (seen : list CommitId) (cs : list Commit) : bool :=
  match cs with
  | [] => true
  | c :: cs' =>
      bool_decide (commit_id c ∉ seen) &&
      bool_decide (Forall (fun p => p ∈ seen) (parent_ids c)) &&
      bool_decide (NoDup (parent_ids c)) &&
      topo_ok (commit_id c :: seen) cs'
  end.

Definition repo_wf (r : Repo) : bool :=
  topo_ok [] (commits r) &&
  bool_decide (map_Forall (fun _ w => w ∈ map commit_id (commits r)) (wc_commit_ids r)).

End Split.

(** * [jj git colocate] (src/cli/src/commands/git/colocate.rs) *)

Module Colocate.
Import Split(Result, Ok, Err).

(** A filesystem node. The contents of a directory tree are abstracted by
    a tag: moving or copying a directory carries the tag along. *)
Inductive Node := FileNode (contents : string) | DirNode (tag : string).

Abbreviation FsState := (gmap string Node).
Definition IoError := string.

(** The filesystem and what the command printed on [ui.status()]. *)
Record World := mkWorld {
  fs : FsState;
  status : list string
}.

(** The outcome of spawning [git]: it could not run, or it exited. *)
Inductive GitOutcome :=
| GitSpawnFailed (e : IoError)
| GitExited (success : bool) (stderr : string).

(** What the operating system answers: which calls fail and with which
    error, the outcome of the [git] subprocess and of the snapshot. *)
Record IoEnv := mkIoEnv {
  write_error : string -> option IoError;
  rename_error : string -> string -> option IoError;
  copy_error : string -> string -> option IoError;
  remove_dir_error : string -> option IoError;
  remove_file_error : string -> option IoError;
  git_output : list string -> GitOutcome;
  snapshot_error : option string
}.

Inductive CommandError :=
| UserError (msg : string)
| UserErrorWithMessage (msg : string) (err : string)
| SnapshotFailed (err : string).

Definition not_found : IoError := "No such file or directory".

Definition dot_jj_path : string := ".jj".
Definition jj_repo_path : string := ".jj/repo".
Definition git_store_path : string := ".jj/repo/store/git".
Definition git_target_path : string := ".jj/repo/store/git_target".
Definition dot_git_path : string := ".git".
Definition jj_gitignore_path : string := ".jj/.gitignore".

Definition gitignore_content : string := String "/" (String "*" (String "010"%char EmptyString)).

(** [Path::exists] and [Path::is_file]. *)
Definition path_exists (w : World) (p : string) : bool := bool_decide (is_Some (fs w !! p)).
Definition is_file (w : World) (p : string) : bool :=
  match fs w !! p with Some (FileNode _) => true | _ => false end.

(** [writeln!(ui.status(), ...)]. *)
Definition writeln_status (msg : string) (w : World) : World :=
  mkWorld (fs w) (status w ++ [msg]).

(** [std::fs::write]. *)
Definition fs_write (io : IoEnv) (p contents : string) (w : World) : Result unit IoError * World :=
  match write_error io p with
  | Some e => (Err e, w)
  | None => (Ok tt, mkWorld (<[p := FileNode contents]> (fs w)) (status w))
  end.

(** [std::fs::remove_file]. *)
Definition fs_remove_file (io : IoEnv) (p : string) (w : World) : Result unit IoError * World :=
  match remove_file_error io p with
  | Some e => (Err e, w)
  | None =>
      match fs w !! p with
      | Some (FileNode _) => (Ok tt, mkWorld (delete p (fs w)) (status w))
      | _ => (Err not_found, w)
      end
  end.

(** [std::fs::rename]. *)
Definition fs_rename (io : IoEnv) (from to : string) (w : World) : Result unit IoError * World :=
  match rename_error io from to with
  | Some e => (Err e, w)
  | None =>
      match fs w !! from with
      | Some n => (Ok tt, mkWorld (delete from (<[to := n]> (fs w))) (status w))
      | None => (Err not_found, w)
      end
  end.

(** [copy_dir_recursive], as one step: a failed copy is modelled as
    leaving the destination untouched. *)
Definition copy_dir_recursive (io : IoEnv) (from to : string) (w : World) : Result unit IoError * World :=
  match copy_error io from to with
  | Some e => (Err e, w)
  | None =>
      match fs w !! from with
      | Some n => (Ok tt, mkWorld (<[to := n]> (fs w)) (status w))
      | None => (Err not_found, w)
      end
  end.

(** [std::fs::remove_dir_all]. *)
Definition remove_dir_all (io : IoEnv) (p : string) (w : World) : Result unit IoError * World :=
  match remove_dir_error io p with
  | Some e => (Err e, w)
  | None => (Ok tt, mkWorld (delete p (fs w)) (status w))
  end.

(** [move_directory]: a rename, falling back to copy and delete. *)
Definition move_directory (io : IoEnv) (from to : string) (w : World) : Result unit IoError * World :=
  match fs_rename io from to w with
  | (Ok _, w) => (Ok tt, w)
  | (Err _, w) =>
      match copy_dir_recursive io from to w with
      | (Err e, w) => (Err e, w)
      | (Ok _, w) => remove_dir_all io from w
      end
  end.

(** [str::trim] on ASCII whitespace. *)
Definition is_ws (a : ascii) : bool :=
  bool_decide (a = " "%char) || bool_decide (a = "010"%char) ||
  bool_decide (a = "009"%char) || bool_decide (a = "013"%char).

Fixpoint drop_ws (l : list ascii) : list ascii :=
  match l with
  | a :: l' => if is_ws a then drop_ws l' else l
  | [] => []
  end.

Definition trim (s : string) : string :=
  String.string_of_list_ascii (rev (drop_ws (rev (drop_ws (String.list_ascii_of_string s))))).

Definition already_colocated_msg : string := "Repository is already co-located with Git.".
Definition already_not_colocated_msg : string := "Repository is already not co-located with Git.".
Definition move_failed_msg : string :=
  "Failed to move git repository from .jj/repo/store/git to repository root directory.".

(** [enable_repository_colocation]. [is_colocated] stands for
    [is_colocated_git_workspace], a predicate on the filesystem.
    The [writeln!] calls are modelled as never failing. *)
Definition enable_repository_colocation (is_colocated : FsState -> bool) (io : IoEnv) (w : World)
    : Result unit CommandError * World :=
  if is_colocated (fs w) then (Ok tt, writeln_status already_colocated_msg w) else
  if path_exists w dot_git_path then
    (Err (UserError "A .git directory already exists in the workspace root. Cannot co-locate."), w) else
  if is_file w jj_repo_path then (Err (UserError "Cannot co-locate a Jujutsu workspace."), w) else
  if negb (path_exists w git_store_path) then
    (Err (UserError "git store not found. This repository might not be using the git back-end."), w) else
  match fs_write io jj_gitignore_path gitignore_content w with
  | (Err e, w) => (Err (UserErrorWithMessage "Failed to create .jj/.gitignore file." e), w)
  | (Ok _, w) =>
  match fs_write io git_target_path "../../../.git" w with
  | (Err e, w) => (Err (UserErrorWithMessage "Failed to create git_target file." e), w)
  | (Ok _, w) =>
  match move_directory io git_store_path dot_git_path w with
  | (Err e, w) =>
      let '(_, w) := fs_remove_file io git_target_path w in
      (Err (UserErrorWithMessage move_failed_msg e), w)
  | (Ok _, w) =>
  match git_output io ["-C"; dot_git_path; "config"; "--unset"; "core.bare"] with
  | GitExited true _ =>
      match snapshot_error io with
      | Some e => (Err (SnapshotFailed e), w)
      | None =>
          (Ok tt, writeln_status
             "Repository successfully converted into a co-located Jujutsu/git repository." w)
      end
  | GitExited false stderr =>
      (Err (UserErrorWithMessage "Failed to unset core.bare in git config."
              ("git config failed: " +:+ trim stderr)), w)
  | GitSpawnFailed e =>
      (Err (UserErrorWithMessage "Failed to run git config command to unset core.bare." e), w)
  end end end end.

(** [disable_repository_colocation]. *)
Definition disable_repository_colocation (is_colocated : FsState -> bool) (io : IoEnv) (w : World)
    : Result unit CommandError * World :=
  if negb (is_colocated (fs w)) then (Ok tt, writeln_status already_not_colocated_msg w) else
  if negb (path_exists w dot_git_path) then
    (Err (UserError "No .git directory found in workspace root."), w) else
  if path_exists w git_store_path then
    (Err (UserError "git store already exists at .jj/repo/store/git. Cannot disable co-location."), w) else
  match git_output io ["-C"; dot_git_path; "config"; "core.bare"; "true"] with
  | GitSpawnFailed e =>
      (Err (UserErrorWithMessage "Failed to run git config command to set core.bare." e), w)
  | GitExited false stderr =>
      (Err (UserErrorWithMessage "Failed to set core.bare in git config."
              ("git config failed: " +:+ trim stderr)), w)
  | GitExited true _ =>
  match move_directory io dot_git_path git_store_path w with
  | (Err e, w) => (Err (UserErrorWithMessage "Failed to move git repository to .jj/repo/store/git" e), w)
  | (Ok _, w) =>
  match fs_write io git_target_path "git" w with
  | (Err e, w) => (Err (UserErrorWithMessage "Failed to update git_target file." e), w)
  | (Ok _, w) =>
  match (if path_exists w jj_gitignore_path then fs_remove_file io jj_gitignore_path w else (Ok tt, w)) with
  | (Err e, w) => (Err (UserErrorWithMessage "Failed to remove .jj/.gitignore file." e), w)
  | (Ok _, w) =>
      (Ok tt, writeln_status
         "Repository successfully converted into a non co-located regular Jujutsu repository." w)
  end end end end.

End Colocate.

(** A colocation scenario: a non-colocated repository whose git store can
    be neither renamed nor copied, and whose pointer file cannot be removed. *)
Module ColocateExamples.
Import Colocate.

Definition fs0 : FsState :=
  <[jj_repo_path := DirNode "repo"]> (<[git_store_path := DirNode "git objects"]> ∅).
Definition w0 : World := mkWorld fs0 [].

Definition colocated_by_dot_git (f : FsState) : bool := bool_decide (is_Some (f !! dot_git_path)).

Definition io_stuck : IoEnv :=
  mkIoEnv (fun _ => None) (fun _ _ => Some "Invalid cross-device link")
    (fun _ _ => Some "Permission denied") (fun _ => None)
    (fun _ => Some "Operation not permitted") (fun _ => GitExited true "") None.

End ColocateExamples.

(** Scenarios where every system call succeeds, or where only the rename
    fails and the copy fallback is taken. *)
Module ColocateScenarios.
Import Split(Result, Ok, Err) Colocate ColocateExamples.

Definition io_ok : IoEnv :=
  mkIoEnv (fun _ => None) (fun _ _ => None) (fun _ _ => None) (fun _ => None)
    (fun _ => None) (fun _ => GitExited true "") None.

Definition io_fallback : IoEnv :=
  mkIoEnv (fun _ => None) (fun _ _ => Some "Invalid cross-device link") (fun _ _ => None)
    (fun _ => None) (fun _ => None) (fun _ => GitExited true "") None.

Definition io_bare_fails : IoEnv :=
  mkIoEnv (fun _ => None) (fun _ _ => None) (fun _ _ => None) (fun _ => None)
    (fun _ => None) (fun _ => GitExited false "error: could not lock config file
") None.

(** A non-colocated repository with its pointer file in place. *)
Definition w_plain : World :=
  mkWorld (<[git_target_path := FileNode "git"]> fs0) [].

(** A colocated repository. *)
Definition w_coloc : World :=
  mkWorld (<[dot_git_path := DirNode "git objects"]>
             (<[git_target_path := FileNode "../../../.git"]>
                (<[jj_gitignore_path := FileNode gitignore_content]>
                   (<[jj_repo_path := DirNode "repo"]> ∅)))) [].

End ColocateScenarios.

(** ** Concrete repositories *)

Module Examples.
Import Split.

Definition t_x : Tree := <["x" := File "1"]> ∅.
Definition t_xy : Tree := <["y" := File "2"]> t_x.
Definition t_xyz : Tree := <["z" := File "3"]> t_xy.

Definition c_root : Commit := mkCommit 0 [] ∅ 0 "".
Definition c_a : Commit := mkCommit 1 [0] t_xy 1 "add x and y".
Definition c_b : Commit := mkCommit 2 [1] t_xyz 2 "add z".

(** A (parent: root) with {x, y}, its child B adding z; workspace
    [default] edits A, workspace [other] edits B. *)
Definition repo_ab : Repo :=
  mkRepo [c_root; c_a; c_b] (<["default" := 1]> (<["other" := 2]> ∅)).

(** A diamond: M merges B with A, B being a child of A. *)
Definition c_m : Commit := mkCommit 3 [2; 1] t_xyz 3 "merge".
Definition repo_diamond : Repo :=
  mkRepo [c_root; c_a; c_b; c_m] (<["default" := 1]> ∅).

(** The same with an empty A. *)
Definition repo_empty : Repo :=
  mkRepo [c_root; mkCommit 1 [0] ∅ 1 "nothing"] (<["default" := 1]> ∅).

(** A has no description. *)
Definition repo_nodesc : Repo :=
  mkRepo [c_root; mkCommit 1 [0] t_xy 1 ""] (<["default" := 1]> ∅).

(** The user selects [x] only; the editor keeps the template text. *)
Definition env_x (legacy : bool) : Env :=
  mkEnv (fun _ _ => t_x) (fun _ d => d) "" legacy (fun _ => false).

(** The user selects everything, or nothing. *)
Definition env_all : Env := mkEnv (fun _ e => e) (fun _ d => d) "" false (fun _ => false).
Definition env_none : Env := mkEnv (fun b _ => b) (fun _ d => d) "" false (fun _ => false).

End Examples.

Module SplitDefs.
Import Split.

(** The two commits [cmd_split] writes, and the transaction before the
    rewrite record of the legacy behaviour. *)
Definition split_base_tree (repo : Repo) (t : Commit) : Tree := parent_tree (commits repo) t.

Definition split_selected (env : Env) (repo : Repo) (t : Commit) : Tree :=
  select env (split_base_tree repo t) (tree t).

Definition split_first (env : Env) (repo : Repo) (t : Commit) : Commit :=
  mkCommit (next_commit_id (commits repo)) (parent_ids t) (split_selected env repo t) (change_id t)
    (edit_description env first_instructions
       (if decide (description t = "") then default_description env else description t)).

Definition split_second (env : Env) (args : SplitArgs) (repo : Repo) (t : Commit) : Commit :=
  let first := split_first env repo t in
  mkCommit (next_commit_id (commits repo ++ [first]))
    (if parallel args then parent_ids t else [commit_id first])
    (if parallel args
     then MergedTree_merge (tree t) (split_selected env repo t) (split_base_tree repo t)
     else tree t)
    (generate_new_change_id (commits repo ++ [first]))
    (if decide (description t = "") then ""
     else edit_description env second_instructions (description t)).

Definition split_warnings (env : Env) (repo : Repo) (t : Commit) : list Event :=
  if decide (split_selected env repo t = tree t) then [Warning all_selected_warning]
  else if decide (split_selected env repo t = split_base_tree repo t) then [Warning none_selected_warning]
  else [].

Definition split_tx2 (env : Env) (args : SplitArgs) (repo : Repo) (t : Commit) : Tx :=
  mkTx repo (commits repo ++ [split_first env repo t; split_second env args repo t])
    (wc_commit_ids repo)
    (<[commit_id t := commit_id (split_first env repo t)]> ∅)
    (split_warnings env repo t ++
     [Prompt first_instructions; RecordRewrite (commit_id t) (commit_id (split_first env repo t))] ++
     (if decide (description t = "") then [] else [Prompt second_instructions])).

Definition split_tx3 (env : Env) (args : SplitArgs) (repo : Repo) (t : Commit) : Tx :=
  if legacy_bookmark_behavior env
  then set_rewritten_commit (commit_id t) (commit_id (split_second env args repo t)) (split_tx2 env args repo t)
  else split_tx2 env args repo t.

Definition split_cascade (env : Env) (args : SplitArgs) (repo : Repo) (t : Commit) : nat * Tx :=
  transform_descendants [commit_id t]
    (split_callback (parallel args) (legacy_bookmark_behavior env)
       (commit_id (split_first env repo t)) (commit_id (split_second env args repo t)))
    0 (split_tx3 env args repo t).

Definition split_tx6 (env : Env) (args : SplitArgs) (repo : Repo) (t : Commit) (num : nat) (tx4 : Tx) : Tx :=
  let tx5 := redirect_working_copies (commit_id t) (commit_id (split_second env args repo t)) tx4 in
  if decide (0 < num)
  then emit (Status ("Rebased " +:+ pretty num +:+ " descendant commits")) tx5 else tx5.

Definition is_record (e : Event) : Prop :=
  match e with RecordRewrite _ _ => True | _ => False end.


(** The parent rewrite the [split_callback] closure performs. *)
Definition callback_rewriter (parallel legacy : bool) (first second : CommitId)
    (rw : CommitRewriter) : CommitRewriter :=
  if parallel && legacy then replace_parent second [first; second] rw
  else if parallel then replace_parent first [first; second] rw
  else replace_parent first [second] rw.

(** The roots [descendants_from] has accumulated after a prefix. *)
Fixpoint desc_roots (roots : list CommitId) (cs : list Commit) : list CommitId :=
  match cs with
  | [] => roots
  | c :: cs' =>
      if bool_decide (Exists (fun p => p ∈ roots) (parent_ids c))
      then desc_roots (commit_id c :: roots) cs'
      else desc_roots roots cs'
  end.

(** The ids [topo_ok] has accumulated after a prefix. *)
Definition topo_seen (seen : list CommitId) (cs : list Commit) : list CommitId :=
  rev (map commit_id cs) ++ seen.

(** Every rewrite record of the trace is also in the rewrite mapping's
    history: each entry of the mapping was recorded. *)
Definition mapping_recorded (tx : Tx) : Prop :=
  forall k v, tx_mapping tx !! k = Some v -> RecordRewrite k v ∈ tx_trace tx.

End SplitDefs.

Module SplitProofs.
Import Split SplitDefs.

Lemma write_commit_eq source ps t chg desc tx :
  write_commit source ps t chg desc tx =
  (mkCommit (next_commit_id (tx_commits tx)) ps t chg desc,
   mkTx (tx_base tx) (tx_commits tx ++ [mkCommit (next_commit_id (tx_commits tx)) ps t chg desc])
        (tx_wc tx)
        (if decide (chg = change_id source)
         then <[commit_id source := next_commit_id (tx_commits tx)]> (tx_mapping tx) else tx_mapping tx)
        (tx_trace tx ++ (if decide (chg = change_id source)
                         then [RecordRewrite (commit_id source) (next_commit_id (tx_commits tx))] else []))).
Proof.
  unfold write_commit, set_rewritten_commit. simpl.
  destruct (decide _); simpl; [done|]. by rewrite app_nil_r.
Qed.



Lemma get_commit_in cs i c : get_commit cs i = Some c -> c ∈ cs /\ commit_id c = i.
Proof.
  unfold get_commit. intros H. apply List.find_some in H as [Hin Hb].
  apply bool_decide_eq_true in Hb. split; [by apply list_elem_of_In|done].
Qed.

Lemma foldr_max_ge (l : list nat) x : x ∈ l -> x <= foldr max 0 l.
Proof.
  induction l as [|y l IH]; simpl; intros Hx; [set_solver|].
  apply elem_of_cons in Hx as [->|Hx]; [lia|]. specialize (IH Hx). lia.
Qed.

Lemma generate_new_change_id_fresh cs c :
  c ∈ cs -> generate_new_change_id cs <> change_id c.
Proof.
  intros Hc. unfold generate_new_change_id.
  assert (change_id c <= foldr max 0 (map change_id cs)); [|lia].
  apply foldr_max_ge, list_elem_of_In, in_map, list_elem_of_In; done.
Qed.

Lemma next_commit_id_fresh cs c :
  c ∈ cs -> next_commit_id cs <> commit_id c.
Proof.
  intros Hc. unfold next_commit_id, max_id.
  assert (commit_id c <= foldr max 0 (map commit_id cs)); [|lia].
  apply foldr_max_ge, list_elem_of_In, in_map, list_elem_of_In; done.
Qed.

Lemma cmd_split_success env args repo t num tx4 :
  get_commit (commits repo) (revision args) = Some t ->
  is_empty (commits repo) t = false ->
  is_immutable env (commit_id t) = false ->
  split_cascade env args repo t = (num, tx4) ->
  cmd_split env args repo =
    (Ok (split_first env repo t, split_second env args repo t, num),
     finish (split_tx6 env args repo t num tx4), tx_trace (split_tx6 env args repo t num tx4)).
Proof.
  intros Hget Hne Himm. unfold cmd_split. rewrite Hget, Hne, Himm.
  pose proof (get_commit_in _ _ _ Hget) as [Hin _].
  assert (Hfresh : forall c, generate_new_change_id (commits repo ++ [c]) <> change_id t).
  { intros c. apply generate_new_change_id_fresh. set_solver. }
  cbv zeta. unfold split_tx6, split_cascade, split_tx3, split_tx2, split_second, split_first,
    split_warnings, split_selected, split_base_tree.
  cbn [tx_commits start_transaction].
  destruct (decide (select _ _ _ = tree t)); [|destruct (decide (select _ _ _ = _))].
  all: rewrite write_commit_eq; cbn [tx_commits tx_base tx_wc tx_mapping tx_trace emit start_transaction].
  all: destruct (decide (description t = "")).
  all: rewrite write_commit_eq; cbn [tx_commits tx_base tx_wc tx_mapping tx_trace emit start_transaction].
  all: repeat match goal with
       | |- context [@decide (?x = ?x) ?dec] =>
           destruct (@decide _ dec) as [_|Hx]; [|exfalso; exact (Hx eq_refl)]
       | |- context [@decide (generate_new_change_id (?cs0 ++ [?c]) = change_id ?t0) ?dec] =>
           destruct (@decide _ dec) as [Hx|_]; [exfalso; exact (Hfresh c Hx)|]
       end.
  all: intros E; lazymatch goal with
       | |- context [transform_descendants ?r ?cb ?a ?tx] =>
           replace (transform_descendants r cb a tx) with (num, tx4); [reflexivity|]
       end.
  all: rewrite <-E; simpl; rewrite <-?app_assoc; reflexivity.
Qed.

Lemma cmd_split_ok_inv env args repo t first second n repo' tr :
  get_commit (commits repo) (revision args) = Some t ->
  cmd_split env args repo = (Ok (first, second, n), repo', tr) ->
  is_empty (commits repo) t = false /\ is_immutable env (commit_id t) = false /\
  first = split_first env repo t /\ second = split_second env args repo t /\
  exists tx4, split_cascade env args repo t = (n, tx4) /\
    repo' = finish (split_tx6 env args repo t n tx4) /\ tr = tx_trace (split_tx6 env args repo t n tx4).
Proof.
  intros Hget H.
  destruct (is_empty (commits repo) t) eqn:He.
  { unfold cmd_split in H. rewrite Hget, He in H. discriminate. }
  destruct (is_immutable env (commit_id t)) eqn:Hi.
  { unfold cmd_split in H. rewrite Hget, He, Hi in H. discriminate. }
  destruct (split_cascade env args repo t) as [n' tx4] eqn:Ec.
  rewrite (cmd_split_success env args repo t n' tx4 Hget He Hi Ec) in H.
  injection H as <- <- <- <- <-. eauto 10.
Qed.

(** ** Traces *)

Lemma rebase_write_tx rw tx :
  let c := old_commit rw in
  let c' := fst (rebase_write rw tx) in
  commit_id c' = next_commit_id (tx_commits tx) /\ parent_ids c' = new_parents rw /\
  snd (rebase_write rw tx) =
    mkTx (tx_base tx) (tx_commits tx ++ [c']) (tx_wc tx)
         (<[commit_id c := commit_id c']> (tx_mapping tx))
         (tx_trace tx ++ [RecordRewrite (commit_id c) (commit_id c')]).
Proof.
  unfold rebase_write. cbv zeta. rewrite write_commit_eq. simpl.
  destruct (decide (change_id (old_commit rw) = change_id (old_commit rw))) as [_|Hx]; [|done].
  done.
Qed.

Lemma split_loop_frame par leg f s ds n tx :
  let r := transform_loop (split_callback par leg f s) ds n tx in
  fst r = n + length ds /\
  tx_base (snd r) = tx_base tx /\ tx_wc (snd r) = tx_wc tx /\
  exists l, tx_trace (snd r) = tx_trace tx ++ l /\ Forall is_record l.
Proof.
  revert n tx. induction ds as [|c ds IH]; intros n tx; cbn [transform_loop length fst snd].
  - split; [lia|]. split; [done|]. split; [done|]. exists []. by rewrite app_nil_r.
  - destruct (split_callback par leg f s n (mkRewriter c (resolve (tx_mapping tx) (parent_ids c))) tx) as [n' tx'] eqn:Ecb.
    unfold split_callback in Ecb. cbv zeta in Ecb.
    set (rw := if par && leg then _ else _) in Ecb. injection Ecb as <- <-.
    destruct (rebase_write_tx rw tx) as (_ & _ & Hw).
    destruct (IH (S n) (snd (rebase_write rw tx))) as (Hn & Hb & Hwc & l & Hl & Hf).
    split; [rewrite Hn; lia|]. split; [rewrite Hb, Hw; done|]. split; [rewrite Hwc, Hw; done|].
    eexists. rewrite Hl, Hw. simpl. rewrite <-app_assoc. split; [done|].
    constructor; [done|done].
Qed.

Lemma update_rewritten_references_trace tx :
  tx_trace (update_rewritten_references tx) = tx_trace tx /\
  tx_base (update_rewritten_references tx) = tx_base tx.
Proof. done. Qed.

Lemma redirect_working_copies_spec target second tx :
  let r := redirect_working_copies target second tx in
  tx_trace r = tx_trace tx /\ tx_commits r = tx_commits tx /\ tx_base r = tx_base tx /\
  forall ws, tx_wc r !! ws =
    if decide (wc_commit_ids (tx_base tx) !! ws = Some target) then Some second else tx_wc tx !! ws.
Proof.
  unfold redirect_working_copies.
  set (base := tx_base tx).
  assert (Hgen : forall m : gmap WorkspaceId CommitId,
    let r := map_fold (fun ws wc tx => if decide (wc = target) then edit ws second tx else tx) tx m in
    tx_trace r = tx_trace tx /\ tx_commits r = tx_commits tx /\ tx_base r = base /\
    forall ws, tx_wc r !! ws = if decide (m !! ws = Some target) then Some second else tx_wc tx !! ws).
  { intros m. cbv zeta. revert m.
    apply (map_fold_weak_ind (fun (r : Tx) (m : gmap WorkspaceId CommitId) =>
      tx_trace r = tx_trace tx /\ tx_commits r = tx_commits tx /\ tx_base r = base /\
      forall ws, tx_wc r !! ws =
        if decide (m !! ws = Some target) then Some second else tx_wc tx !! ws)).
    - split; [done|]. split; [done|]. split; [done|]. intros ws. by rewrite lookup_empty.
    - intros i x m r Hi (Ht & Hc & Hb & Hwc). destruct (decide (x = target)) as [->|Hx].
      + simpl. split; [done|]. split; [done|]. split; [done|]. intros ws.
        destruct (decide (i = ws)) as [->|Hne].
        * rewrite !lookup_insert_eq. by rewrite decide_True.
        * rewrite !lookup_insert_ne by done. apply Hwc.
      + split; [done|]. split; [done|]. split; [done|]. intros ws.
        destruct (decide (i = ws)) as [->|Hne].
        * rewrite lookup_insert_eq, Hwc, Hi. rewrite !decide_False; [done| |]; congruence.
        * rewrite lookup_insert_ne by done. apply Hwc. }
  apply Hgen.
Qed.

Lemma split_cascade_frame env args repo t :
  let r := split_cascade env args repo t in
  tx_base (snd r) = repo /\
  exists l, tx_trace (snd r) = tx_trace (split_tx3 env args repo t) ++ TransformStart :: l /\
            Forall is_record l.
Proof.
  unfold split_cascade, transform_descendants. cbv zeta.
  destruct (transform_loop _ _ _ _) as [n tx4] eqn:E.
  pose proof (split_loop_frame (parallel args) (legacy_bookmark_behavior env)
     (commit_id (split_first env repo t)) (commit_id (split_second env args repo t))
     (descendants_from [commit_id t] (tx_commits (emit TransformStart (split_tx3 env args repo t))))
     0 (emit TransformStart (split_tx3 env args repo t))) as (_ & Hb & _ & l & Hl & Hf).
  rewrite E in Hb, Hl. simpl in *. split.
  - rewrite Hb. unfold split_tx3. by destruct (legacy_bookmark_behavior env).
  - exists l. rewrite Hl, <-app_assoc. done.
Qed.

Lemma split_tx3_trace env args repo t :
  tx_trace (split_tx3 env args repo t) =
    tx_trace (split_tx2 env args repo t) ++
    (if legacy_bookmark_behavior env
     then [RecordRewrite (commit_id t) (commit_id (split_second env args repo t))] else []).
Proof. unfold split_tx3. destruct (legacy_bookmark_behavior env); simpl; by rewrite ?app_nil_r. Qed.

(** The whole trace of a successful split. *)
Lemma split_trace_shape env args repo t n tx4 :
  split_cascade env args repo t = (n, tx4) ->
  exists l,
    tx_trace (split_tx6 env args repo t n tx4) =
      tx_trace (split_tx3 env args repo t) ++ TransformStart :: l /\
    Forall (fun e => is_record e \/ exists m, e = Status m) l.
Proof.
  intros E. destruct (split_cascade_frame env args repo t) as (_ & l & Hl & Hf).
  rewrite E in Hl. simpl in Hl.
  destruct (redirect_working_copies_spec (commit_id t) (commit_id (split_second env args repo t)) tx4)
    as (Ht & _ & _ & _).
  unfold split_tx6. cbv zeta. destruct (decide (0 < n)).
  - eexists. cbn [emit tx_trace]. rewrite Ht, Hl, <-app_assoc. split; [done|].
    apply Forall_app. split; [eapply Forall_impl; [done|]; by left|].
    constructor; [right; eauto|constructor].
  - exists l. rewrite Ht, Hl. split; [done|]. eapply Forall_impl; [done|]. by left.
Qed.
(** ** The tree merge, path by path *)

Lemma from_option_value_opt v : from_option id Absent (value_opt v) = v.
Proof. by destruct v. Qed.

Lemma get_merge3 s1 s2 b p :
  get (merge3 s1 s2 b) p = merge_value (get s1 p) (get s2 p) (get b p).
Proof.
  unfold get, merge3. rewrite !lookup_merge. unfold diag_None.
  destruct (s1 !! p), (s2 !! p), (b !! p); simpl; rewrite ?from_option_value_opt; done.
Qed.

(** Merging [end] and [base] against [selected] keeps, at each path, what
    the user did not select. *)
Lemma merge_complement (end_tree selected base : Tree) p :
  (get selected p = get base p ->
     get (MergedTree_merge end_tree selected base) p = get end_tree p) /\
  (get selected p = get end_tree p ->
     get (MergedTree_merge end_tree selected base) p = get base p).
Proof.
  unfold MergedTree_merge. rewrite get_merge3. unfold merge_value. split; intros Hs.
  - destruct (decide (get end_tree p = get selected p)) as [He|He].
    + congruence.
    + rewrite decide_True by congruence. done.
  - by rewrite decide_True by congruence.
Qed.
(** ** The cascade, step by step *)

Lemma elem_of_map_iff {A B} (f : A -> B) (l : list A) y :
  y ∈ map f l <-> exists x, y = f x /\ x ∈ l.
Proof.
  rewrite list_elem_of_In, in_map_iff. split.
  - intros (x & <- & Hx). exists x. split; [done|]. by apply list_elem_of_In.
  - intros (x & -> & Hx). exists x. split; [done|]. by apply list_elem_of_In.
Qed.

Lemma foldr_max_init (l : list nat) a : foldr max 0 l <= foldr max a l.
Proof. induction l as [|x l IH]; simpl; lia. Qed.

Lemma max_id_app cs1 cs2 : max_id cs1 <= max_id (cs1 ++ cs2).
Proof. unfold max_id. rewrite map_app, foldr_app. apply foldr_max_init. Qed.

Lemma id_le_max_id cs c : c ∈ cs -> commit_id c <= max_id cs.
Proof. intros Hc. apply foldr_max_ge. apply elem_of_map_iff. eauto. Qed.

Lemma split_callback_eq par leg f s n rw tx :
  split_callback par leg f s n rw tx =
  (S n, snd (rebase_write (callback_rewriter par leg f s rw) tx)).
Proof. reflexivity. Qed.

Lemma split_loop_cons par leg f s c ds n tx :
  transform_loop (split_callback par leg f s) (c :: ds) n tx =
  transform_loop (split_callback par leg f s) ds (S n)
    (snd (rebase_write (callback_rewriter par leg f s
                          (mkRewriter c (resolve (tx_mapping tx) (parent_ids c)))) tx)).
Proof. reflexivity. Qed.

Lemma transform_loop_app {A} (cb : A -> CommitRewriter -> Tx -> A * Tx) ds1 ds2 acc tx :
  transform_loop cb (ds1 ++ ds2) acc tx =
  transform_loop cb ds2 (fst (transform_loop cb ds1 acc tx)) (snd (transform_loop cb ds1 acc tx)).
Proof.
  revert acc tx. induction ds1 as [|c ds1 IH]; intros acc tx; simpl; [done|].
  destruct (cb acc _ tx) as [a' tx']. apply IH.
Qed.

Lemma replace_parent_old o ns rw : old_commit (replace_parent o ns rw) = old_commit rw.
Proof. unfold replace_parent. by destruct (decide _). Qed.

Lemma callback_rewriter_old par leg f s rw :
  old_commit (callback_rewriter par leg f s rw) = old_commit rw.
Proof. unfold callback_rewriter. destruct par, leg; simpl; apply replace_parent_old. Qed.

(** One step of the loop: the rebased copy is appended, recorded and mapped. *)
Lemma split_step par leg f s c tx :
  let rw := callback_rewriter par leg f s (mkRewriter c (resolve (tx_mapping tx) (parent_ids c))) in
  let c' := fst (rebase_write rw tx) in
  commit_id c' = next_commit_id (tx_commits tx) /\ parent_ids c' = new_parents rw /\
  snd (rebase_write rw tx) =
    mkTx (tx_base tx) (tx_commits tx ++ [c']) (tx_wc tx)
         (<[commit_id c := commit_id c']> (tx_mapping tx))
         (tx_trace tx ++ [RecordRewrite (commit_id c) (commit_id c')]).
Proof.
  cbv zeta. destruct (rebase_write_tx (callback_rewriter par leg f s
    (mkRewriter c (resolve (tx_mapping tx) (parent_ids c)))) tx) as (H1 & H2 & H3).
  rewrite callback_rewriter_old in H3. auto.
Qed.

Lemma split_loop_ind par leg f s (P : Tx -> Prop) ds n tx :
  P tx ->
  (forall c tx, c ∈ ds -> P tx ->
     P (snd (rebase_write (callback_rewriter par leg f s
              (mkRewriter c (resolve (tx_mapping tx) (parent_ids c)))) tx))) ->
  P (snd (transform_loop (split_callback par leg f s) ds n tx)).
Proof.
  revert n tx. induction ds as [|c ds IH]; intros n tx HP Hstep; [done|].
  rewrite split_loop_cons. apply IH.
  - apply Hstep; [set_solver|done].
  - intros c' tx' Hc'. apply Hstep. set_solver.
Qed.

Lemma split_loop_prefix par leg f s ds n tx :
  let r := snd (transform_loop (split_callback par leg f s) ds n tx) in
  tx_base r = tx_base tx /\ tx_wc r = tx_wc tx /\
  (exists cs, tx_commits r = tx_commits tx ++ cs) /\
  (exists l, tx_trace r = tx_trace tx ++ l) /\
  (forall o v, RecordRewrite o v ∈ tx_trace r ->
     RecordRewrite o v ∈ tx_trace tx \/ max_id (tx_commits tx) < v).
Proof.
  cbv zeta. apply (split_loop_ind par leg f s (fun r =>
    tx_base r = tx_base tx /\ tx_wc r = tx_wc tx /\
    (exists cs, tx_commits r = tx_commits tx ++ cs) /\
    (exists l, tx_trace r = tx_trace tx ++ l) /\
    (forall o v, RecordRewrite o v ∈ tx_trace r ->
       RecordRewrite o v ∈ tx_trace tx \/ max_id (tx_commits tx) < v))).
  - split; [done|]. split; [done|].
    split; [exists []; by rewrite app_nil_r|]. split; [exists []; by rewrite app_nil_r|]. auto.
  - intros c tx' _ (Hb & Hw & (cs & Hcs) & (l & Hl) & Hr).
    destruct (split_step par leg f s c tx') as (Hid & _ & ->). simpl.
    split; [done|]. split; [done|].
    split; [eexists; rewrite Hcs, <-app_assoc; done|].
    split; [eexists; rewrite Hl, <-app_assoc; done|].
    intros o v Hin. apply elem_of_app in Hin as [Hin|Hin]; [by apply Hr|].
    apply list_elem_of_singleton in Hin. injection Hin as -> ->. right.
    rewrite Hid. unfold next_commit_id. rewrite Hcs.
    pose proof (max_id_app (tx_commits tx) cs). lia.
Qed.

Lemma split_loop_mapping_other par leg f s ds n tx k :
  k ∉ map commit_id ds ->
  tx_mapping (snd (transform_loop (split_callback par leg f s) ds n tx)) !! k = tx_mapping tx !! k.
Proof.
  intros Hk. apply (split_loop_ind par leg f s (fun r => tx_mapping r !! k = tx_mapping tx !! k)); [done|].
  intros c tx' Hc IH. destruct (split_step par leg f s c tx') as (_ & _ & ->). simpl.
  rewrite lookup_insert_ne; [done|]. intros Heq. apply Hk, elem_of_map_iff. exists c. split; [congruence|done].
Qed.

Lemma split_loop_mapping_some par leg f s ds n tx k :
  k ∈ map commit_id ds \/ is_Some (tx_mapping tx !! k) ->
  is_Some (tx_mapping (snd (transform_loop (split_callback par leg f s) ds n tx)) !! k).
Proof.
  revert n tx. induction ds as [|c ds IH]; intros n tx Hk.
  - destruct Hk as [Hk|Hk]; [simpl in Hk; set_solver|done].
  - rewrite split_loop_cons. apply IH. destruct (split_step par leg f s c tx) as (_ & _ & ->). simpl.
    destruct (decide (k = commit_id c)) as [->|Hne]; [right; by rewrite lookup_insert_eq|].
    destruct Hk as [Hk|Hk].
    + left. simpl in Hk. apply elem_of_cons in Hk as [Hk|Hk]; [congruence|done].
    + right. by rewrite lookup_insert_ne.
Qed.

Lemma split_loop_recorded par leg f s ds n tx :
  mapping_recorded tx ->
  mapping_recorded (snd (transform_loop (split_callback par leg f s) ds n tx)).
Proof.
  intros H0. apply (split_loop_ind par leg f s mapping_recorded); [done|].
  intros c tx' _ IH. destruct (split_step par leg f s c tx') as (_ & _ & ->).
  unfold mapping_recorded in *; simpl. intros k v Hk.
  destruct (decide (k = commit_id c)) as [->|Hne].
  - rewrite lookup_insert_eq in Hk. injection Hk as <-. set_solver.
  - rewrite lookup_insert_ne in Hk by done. apply IH in Hk. set_solver.
Qed.

(** Visiting [c]: its rebased copy is written and recorded, with the parents
    the callback computes from the mapping of the moment. *)
Lemma split_loop_visit par leg f s A c B n tx :
  let txA := snd (transform_loop (split_callback par leg f s) A n tx) in
  let r := snd (transform_loop (split_callback par leg f s) (A ++ c :: B) n tx) in
  exists c', c' ∈ tx_commits r /\ RecordRewrite (commit_id c) (commit_id c') ∈ tx_trace r /\
    parent_ids c' = new_parents (callback_rewriter par leg f s
                                   (mkRewriter c (resolve (tx_mapping txA) (parent_ids c)))).
Proof.
  cbv zeta. rewrite transform_loop_app, split_loop_cons.
  set (txA := snd (transform_loop _ A n tx)).
  destruct (split_step par leg f s c txA) as (_ & Hp & Hw).
  set (c' := fst (rebase_write _ txA)) in *.
  match goal with |- context [transform_loop _ B ?m (snd (rebase_write ?rw txA))] =>
    destruct (split_loop_prefix par leg f s B m (snd (rebase_write rw txA)))
      as (_ & _ & (cs & Hcs) & (l & Hl) & _) end.
  exists c'. rewrite Hcs, Hl, Hw. simpl. split; [set_solver|]. split; [set_solver|done].
Qed.

(** ** Descendants and the store invariant *)

Lemma elem_of_rev {A} (x : A) (l : list A) : x ∈ rev l <-> x ∈ l.
Proof. rewrite !list_elem_of_In. symmetry. apply in_rev. Qed.

Lemma descendants_from_app roots l1 l2 :
  descendants_from roots (l1 ++ l2) =
  descendants_from roots l1 ++ descendants_from (desc_roots roots l1) l2.
Proof.
  revert roots. induction l1 as [|c l1 IH]; intros roots; simpl; [done|].
  case_bool_decide; simpl; by rewrite IH.
Qed.

Lemma descendants_from_sub roots cs d : d ∈ descendants_from roots cs -> d ∈ cs.
Proof.
  revert roots. induction cs as [|c cs IH]; intros roots; simpl; [set_solver|].
  case_bool_decide as Hb.
  - intros H. apply elem_of_cons in H as [->|H]; apply elem_of_cons; [by left|right; eauto].
  - intros H. apply elem_of_cons. right. eauto.
Qed.

Lemma descendants_from_child roots cs c :
  c ∈ cs -> (exists p, p ∈ parent_ids c /\ p ∈ roots) -> c ∈ descendants_from roots cs.
Proof.
  revert roots. induction cs as [|c0 cs IH]; intros roots Hc Hp; [set_solver|].
  simpl. apply elem_of_cons in Hc as [->|Hc].
  - case_bool_decide as Hb; [apply elem_of_cons; by left|].
    exfalso. apply Hb, Exists_exists. destruct Hp as (p & ? & ?). eauto.
  - case_bool_decide.
    + apply elem_of_cons. right. apply IH; [done|].
      destruct Hp as (p & ? & ?). exists p. split; [done|]. apply elem_of_cons. by right.
    + by apply IH.
Qed.

Lemma topo_ok_app seen l1 l2 :
  topo_ok seen (l1 ++ l2) = topo_ok seen l1 && topo_ok (topo_seen seen l1) l2.
Proof.
  revert seen. induction l1 as [|c l1 IH]; intros seen; simpl; [done|].
  rewrite IH. unfold topo_seen. simpl. rewrite <-app_assoc. simpl. by rewrite !andb_assoc.
Qed.

Lemma topo_ok_cons seen c cs :
  topo_ok seen (c :: cs) = true ->
  (commit_id c ∉ seen) /\ (forall p, p ∈ parent_ids c -> p ∈ seen) /\ NoDup (parent_ids c) /\
  topo_ok (commit_id c :: seen) cs = true.
Proof.
  simpl. intros H. apply andb_prop in H as [H Hrest]. apply andb_prop in H as [H Hnd].
  apply andb_prop in H as [Hf Hp]. apply bool_decide_eq_true in Hf, Hp, Hnd.
  rewrite Forall_forall in Hp. auto.
Qed.

Lemma topo_ok_mem seen cs c :
  topo_ok seen cs = true -> c ∈ cs ->
  (commit_id c ∉ seen) /\ NoDup (parent_ids c) /\
  (forall p, p ∈ parent_ids c -> p ∈ seen \/ p ∈ map commit_id cs).
Proof.
  revert seen. induction cs as [|c0 cs IH]; intros seen Htopo Hc; [set_solver|].
  apply topo_ok_cons in Htopo as (Hf & Hpar & Hnd & Hrest).
  apply elem_of_cons in Hc as [->|Hc].
  - split; [done|]. split; [done|]. intros p Hp. left. by apply Hpar.
  - destruct (IH _ Hrest Hc) as (Hf' & Hn & Hp). split; [set_solver|]. split; [done|].
    intros p Hp'. destruct (Hp p Hp') as [H|H]; simpl; set_solver.
Qed.

Lemma descendants_none seen cs roots :
  topo_ok seen cs = true ->
  (forall r, r ∈ roots -> (r ∉ seen) /\ (r ∉ map commit_id cs)) ->
  descendants_from roots cs = [] /\ desc_roots roots cs = roots.
Proof.
  revert seen. induction cs as [|c cs IH]; intros seen Htopo Hr; simpl; [done|].
  apply topo_ok_cons in Htopo as (Hf & Hpar & Hnd & Hrest).
  case_bool_decide as Hb.
  - exfalso. apply Exists_exists in Hb as (p & Hp & Hin).
    destruct (Hr p Hin) as [H1 _]. by apply H1, Hpar.
  - apply (IH (commit_id c :: seen)); [done|]. intros r Hin.
    destruct (Hr r Hin) as [H1 H2]. simpl in H2. set_solver.
Qed.

(** Acyclicity: a commit is not among its own descendants. *)
Lemma self_not_descendant cs t :
  topo_ok [] cs = true -> t ∈ cs ->
  commit_id t ∉ map commit_id (descendants_from [commit_id t] cs).
Proof.
  intros Htopo Ht. apply list_elem_of_split in Ht as (X & Y & ->).
  rewrite topo_ok_app in Htopo. apply andb_prop in Htopo as [HX HtY].
  apply topo_ok_cons in HtY as (Hf & Hpar & _ & HY).
  assert (HtX : commit_id t ∉ map commit_id X).
  { intros H. apply Hf. unfold topo_seen. rewrite app_nil_r. by apply elem_of_rev. }
  destruct (descendants_none [] X [commit_id t] HX) as [HdX HrX].
  { intros r Hr. apply list_elem_of_singleton in Hr as ->. split; [set_solver|done]. }
  rewrite descendants_from_app, HdX, HrX. simpl.
  case_bool_decide as Hb.
  - exfalso. apply Exists_exists in Hb as (p & Hp & Hin).
    apply list_elem_of_singleton in Hin as ->. by apply Hf, Hpar.
  - rewrite elem_of_map_iff. intros (d & Hd & Hin). apply descendants_from_sub in Hin.
    destruct (topo_ok_mem _ _ d HY Hin) as (Hdf & _). apply Hdf. rewrite <-Hd. apply elem_of_cons. by left.
Qed.

(** ** Re-parenting *)

Lemma splice_first_app old news pre post :
  old ∉ pre -> splice_first old news (pre ++ old :: post) = pre ++ news ++ post.
Proof.
  induction pre as [|p pre IH]; intros Hold; simpl.
  - by rewrite decide_True.
  - rewrite decide_False by set_solver. rewrite IH by set_solver. done.
Qed.

Lemma retain_unique_nodup seen l :
  NoDup l -> (forall x, x ∈ l -> x ∉ seen) -> retain_unique seen l = l.
Proof.
  revert seen. induction l as [|x l IH]; intros seen Hnd Hs; simpl; [done|].
  apply NoDup_cons in Hnd as [Hx Hnd].
  rewrite decide_False by (apply Hs; set_solver).
  f_equal. apply IH; [done|]. intros y Hy. apply not_elem_of_cons. split.
  - intros ->. by apply Hx.
  - apply Hs. set_solver.
Qed.

Lemma resolve_app m l1 l2 : resolve m (l1 ++ l2) = resolve m l1 ++ resolve m l2.
Proof. unfold resolve. apply map_app. Qed.

Lemma resolve_id m l : (forall p, p ∈ l -> m !! p = None) -> resolve m l = l.
Proof.
  induction l as [|p l IH]; intros Hp; [done|].
  change (resolve m (p :: l)) with (default p (m !! p) :: resolve m l).
  rewrite Hp by set_solver. simpl. f_equal. apply IH. set_solver.
Qed.

Lemma resolve_edge m pre x post y :
  m !! x = Some y -> (forall p, p ∈ pre ++ post -> m !! p = None) ->
  resolve m (pre ++ x :: post) = pre ++ y :: post.
Proof.
  intros Hx Hp. rewrite resolve_app.
  change (resolve m (x :: post)) with (default x (m !! x) :: resolve m post).
  rewrite Hx, !resolve_id; [done| |]; intros p Hin; apply Hp; set_solver.
Qed.

Lemma nodup_insert_middle (pre news post : list CommitId) :
  NoDup (pre ++ post) -> NoDup news -> (forall x, x ∈ news -> x ∉ pre ++ post) ->
  NoDup (pre ++ news ++ post).
Proof.
  intros H1 H2 H3.
  assert (Hp : pre ++ news ++ post ≡ₚ news ++ pre ++ post) by solve_Permutation.
  rewrite Hp. apply NoDup_app. split; [done|]. split; [|done]. intros x Hx. by apply H3.
Qed.

(** What the callback makes of an edge to the split commit, once the
    mapping has resolved it to [second] (legacy) or [first]. *)
Lemma callback_rewriter_parents par leg f s c pre post :
  NoDup (pre ++ post) -> f ∉ pre ++ post -> s ∉ pre ++ post -> f <> s ->
  new_parents (callback_rewriter par leg f s (mkRewriter c (pre ++ (if leg then s else f) :: post))) =
  pre ++ (if par then [f; s] else [s]) ++ post.
Proof.
  intros Hnd Hf Hs Hfs.
  assert (Hfs2 : NoDup [f; s]).
  { apply NoDup_cons. split; [set_solver|apply NoDup_singleton]. }
  unfold callback_rewriter, replace_parent; destruct par, leg; cbn [andb new_parents].
  - rewrite decide_True by set_solver. simpl. rewrite splice_first_app by set_solver.
    apply retain_unique_nodup; [apply (nodup_insert_middle pre [f; s] post); [done|done|set_solver]|set_solver].
  - rewrite decide_True by set_solver. simpl. rewrite splice_first_app by set_solver.
    apply retain_unique_nodup; [apply (nodup_insert_middle pre [f; s] post); [done|done|set_solver]|set_solver].
  - rewrite decide_False by set_solver. done.
  - rewrite decide_True by set_solver. simpl. rewrite splice_first_app by set_solver.
    apply retain_unique_nodup; [apply (nodup_insert_middle pre [s] post); [done|apply NoDup_singleton|set_solver]|set_solver].
Qed.

(** ** The cascade of a split *)

Lemma split_first_id env repo t :
  commit_id (split_first env repo t) = next_commit_id (commits repo).
Proof. reflexivity. Qed.

Lemma split_second_id env args repo t :
  commit_id (split_second env args repo t) = next_commit_id (commits repo ++ [split_first env repo t]).
Proof. reflexivity. Qed.

(** The two new ids are distinct, and distinct from every id of the repo. *)
Lemma split_ids_fresh env args repo t :
  commit_id (split_first env repo t) <> commit_id (split_second env args repo t) /\
  forall d, d ∈ commits repo ->
    commit_id (split_first env repo t) <> commit_id d /\
    commit_id (split_second env args repo t) <> commit_id d.
Proof.
  rewrite split_first_id, split_second_id. split.
  - intros H. apply (next_commit_id_fresh (commits repo ++ [split_first env repo t]) (split_first env repo t));
      [set_solver|]. rewrite <-H. symmetry. apply split_first_id.
  - intros d Hd. split; apply next_commit_id_fresh; set_solver.
Qed.

Lemma split_tx3_commits env args repo t :
  tx_commits (split_tx3 env args repo t) =
    commits repo ++ [split_first env repo t; split_second env args repo t].
Proof. unfold split_tx3. by destruct (legacy_bookmark_behavior env). Qed.

Lemma split_tx3_wc env args repo t :
  tx_wc (split_tx3 env args repo t) = wc_commit_ids repo.
Proof. unfold split_tx3. by destruct (legacy_bookmark_behavior env). Qed.

Lemma split_tx3_mapping env args repo t k :
  tx_mapping (split_tx3 env args repo t) !! k =
  if decide (k = commit_id t)
  then Some (if legacy_bookmark_behavior env then commit_id (split_second env args repo t)
             else commit_id (split_first env repo t))
  else None.
Proof.
  unfold split_tx3, split_tx2. destruct (legacy_bookmark_behavior env); simpl;
    destruct (decide (k = commit_id t)) as [->|Hne].
  - by rewrite lookup_insert_eq.
  - by rewrite !lookup_insert_ne, lookup_empty by congruence.
  - by rewrite lookup_insert_eq.
  - by rewrite lookup_insert_ne, lookup_empty by congruence.
Qed.

Lemma split_tx3_recorded env args repo t : mapping_recorded (split_tx3 env args repo t).
Proof.
  intros k v. rewrite split_tx3_mapping. destruct (decide (k = commit_id t)) as [->|]; [|done].
  intros Hv. injection Hv as <-. rewrite split_tx3_trace. unfold split_tx2. cbn [tx_trace].
  destruct (legacy_bookmark_behavior env); set_solver.
Qed.

Lemma split_cascade_eq env args repo t :
  let txS := emit TransformStart (split_tx3 env args repo t) in
  let r := transform_loop (split_callback (parallel args) (legacy_bookmark_behavior env)
             (commit_id (split_first env repo t)) (commit_id (split_second env args repo t)))
             (descendants_from [commit_id t]
                (commits repo ++ [split_first env repo t; split_second env args repo t])) 0 txS in
  split_cascade env args repo t = (fst r, update_rewritten_references (snd r)).
Proof.
  cbv zeta. unfold split_cascade, transform_descendants. cbv zeta.
  cbn [tx_commits emit]. rewrite split_tx3_commits. by destruct (transform_loop _ _ _ _).
Qed.

Lemma split_tx6_frame env args repo t n tx4 :
  let r := split_tx6 env args repo t n tx4 in
  tx_commits r = tx_commits tx4 /\
  (exists l, tx_trace r = tx_trace tx4 ++ l /\ Forall (fun e => exists m, e = Status m) l) /\
  forall ws, tx_wc r !! ws =
    if decide (wc_commit_ids (tx_base tx4) !! ws = Some (commit_id t))
    then Some (commit_id (split_second env args repo t)) else tx_wc tx4 !! ws.
Proof.
  cbv zeta.
  destruct (redirect_working_copies_spec (commit_id t) (commit_id (split_second env args repo t)) tx4)
    as (Ht & Hc & _ & Hw).
  unfold split_tx6. cbv zeta. destruct (decide (0 < n)); cbn [emit tx_commits tx_trace tx_wc].
  - split; [done|]. split; [|done]. eexists. rewrite Ht. split; [done|]. repeat constructor. eauto.
  - split; [done|]. split; [|done]. exists []. rewrite app_nil_r. done.
Qed.

(** ** Parents that are themselves descendants *)

Lemma desc_roots_incl roots cs r : r ∈ roots -> r ∈ desc_roots roots cs.
Proof.
  revert roots. induction cs as [|c cs IH]; intros roots Hr; simpl; [done|].
  case_bool_decide; apply IH; set_solver.
Qed.

(** A child of a root is listed after the descendants met before it. *)
Lemma descendants_from_split roots X c Y :
  (exists p, p ∈ parent_ids c /\ p ∈ roots) ->
  descendants_from roots (X ++ c :: Y) =
  descendants_from roots X ++ c :: descendants_from (commit_id c :: desc_roots roots X) Y.
Proof.
  intros (p & Hp & Hr). rewrite descendants_from_app. cbn [descendants_from].
  rewrite bool_decide_eq_true_2; [done|]. apply Exists_exists. exists p. split; [done|].
  by apply desc_roots_incl.
Qed.

(** In a store written parents first, a parent of [c] that is a
    descendant is among the descendants listed before [c]. *)
Lemma descendant_parent_before roots cs X c Y p :
  cs = X ++ c :: Y -> topo_ok [] cs = true -> p ∈ parent_ids c ->
  p ∈ map commit_id (descendants_from roots cs) ->
  p ∈ map commit_id (descendants_from roots X).
Proof.
  intros -> Htopo Hp Hin.
  rewrite topo_ok_app in Htopo. apply andb_prop in Htopo as [_ HcY].
  apply topo_ok_cons in HcY as (Hf & Hpar & _ & HY). apply Hpar in Hp.
  rewrite descendants_from_app, map_app in Hin. apply elem_of_app in Hin as [Hin|Hin]; [done|].
  exfalso.
  assert (Hsub : forall rs, p ∉ map commit_id (descendants_from rs Y)).
  { intros rs H. apply elem_of_map_iff in H as (d & -> & Hd). apply descendants_from_sub in Hd.
    destruct (topo_ok_mem _ _ d HY Hd) as (Hdf & _). apply Hdf. set_solver. }
  cbn [descendants_from] in Hin. case_bool_decide.
  - cbn [map] in Hin. apply elem_of_cons in Hin as [->|Hin]; [by apply Hf|]. by eapply Hsub.
  - by eapply Hsub.
Qed.

(** The loop maps each id it visits to an id above every id of the store
    it started from, and no two keys share such an id. *)
Lemma split_loop_fresh par leg f s ds n tx :
  (forall k v, tx_mapping tx !! k = Some v -> v <= max_id (tx_commits tx)) ->
  let r := snd (transform_loop (split_callback par leg f s) ds n tx) in
  forall k v, tx_mapping r !! k = Some v ->
    tx_mapping tx !! k = Some v \/
    (max_id (tx_commits tx) < v /\ forall k', tx_mapping r !! k' = Some v -> k' = k).
Proof.
  intros H0. cbv zeta.
  enough (H : max_id (tx_commits tx) <=
                max_id (tx_commits (snd (transform_loop (split_callback par leg f s) ds n tx))) /\
    (forall k v, tx_mapping (snd (transform_loop (split_callback par leg f s) ds n tx)) !! k = Some v ->
       v <= max_id (tx_commits (snd (transform_loop (split_callback par leg f s) ds n tx)))) /\
    (forall k v, tx_mapping (snd (transform_loop (split_callback par leg f s) ds n tx)) !! k = Some v ->
       tx_mapping tx !! k = Some v \/
       (max_id (tx_commits tx) < v /\
        forall k', tx_mapping (snd (transform_loop (split_callback par leg f s) ds n tx)) !! k' = Some v ->
          k' = k))) by apply H.
  apply (split_loop_ind par leg f s (fun r =>
    max_id (tx_commits tx) <= max_id (tx_commits r) /\
    (forall k v, tx_mapping r !! k = Some v -> v <= max_id (tx_commits r)) /\
    (forall k v, tx_mapping r !! k = Some v ->
       tx_mapping tx !! k = Some v \/
       (max_id (tx_commits tx) < v /\ forall k', tx_mapping r !! k' = Some v -> k' = k)))).
  - split; [done|]. split; [done|]. auto.
  - intros c tx' _ (HM & Hb & Hk).
    destruct (split_step par leg f s c tx') as (Hid & _ & ->). cbn [tx_mapping tx_commits].
    set (c' := fst (rebase_write _ tx')) in *.
    assert (Hc' : commit_id c' = S (max_id (tx_commits tx'))) by (rewrite Hid; done).
    pose proof (max_id_app (tx_commits tx') [c']) as Hm.
    assert (Hle : commit_id c' <= max_id (tx_commits tx' ++ [c'])) by (apply id_le_max_id; set_solver).
    split; [lia|]. split.
    + intros k v Hkv. destruct (decide (k = commit_id c)) as [->|Hne].
      * rewrite lookup_insert_eq in Hkv. injection Hkv as <-. done.
      * rewrite lookup_insert_ne in Hkv by done. apply Hb in Hkv. lia.
    + intros k v Hkv. destruct (decide (k = commit_id c)) as [->|Hne].
      * rewrite lookup_insert_eq in Hkv. injection Hkv as <-. right. split; [lia|].
        intros k' Hk'. destruct (decide (k' = commit_id c)) as [->|Hne']; [done|].
        rewrite lookup_insert_ne in Hk' by done. apply Hb in Hk'. lia.
      * rewrite lookup_insert_ne in Hkv by done.
        destruct (Hk k v Hkv) as [Hl|[Hlt Hu]]; [by left|]. right. split; [done|].
        intros k' Hk'. destruct (decide (k' = commit_id c)) as [->|Hne'].
        -- rewrite lookup_insert_eq in Hk'. injection Hk' as Hk'. apply Hb in Hkv. lia.
        -- rewrite lookup_insert_ne in Hk' by done. by apply Hu.
Qed.

(** Resolving through a mapping whose values are new and not shared keeps
    a list free of duplicates. *)
Lemma resolve_nodup (m : gmap CommitId CommitId) l :
  NoDup l ->
  (forall p v, p ∈ l -> m !! p = Some v -> (v ∉ l) /\ (forall k, k ∈ l -> m !! k = Some v -> k = p)) ->
  NoDup (resolve m l).
Proof.
  induction l as [|p l IH]; intros Hnd Hm; [constructor|].
  apply NoDup_cons in Hnd as [Hp Hnd].
  change (resolve m (p :: l)) with (default p (m !! p) :: resolve m l).
  apply NoDup_cons. split.
  - unfold resolve. rewrite elem_of_map_iff. intros (q & Heq & Hq).
    destruct (m !! p) as [vp|] eqn:Ep, (m !! q) as [vq|] eqn:Eq; cbn [default from_option id] in Heq.
    + rewrite <-Heq in Eq. destruct (Hm p vp) as [_ Hu]; [set_solver|done|].
      assert (q = p) as -> by (apply Hu; [set_solver|done]). done.
    + destruct (Hm p vp) as [Hv _]; [set_solver|done|]. rewrite Heq in Hv. set_solver.
    + destruct (Hm q vq) as [Hv _]; [set_solver|done|]. rewrite <-Heq in Hv. set_solver.
    + rewrite Heq in Hp. done.
  - apply IH; [done|]. intros q v Hq Hqv. destruct (Hm q v) as [Hv Hu]; [set_solver|done|].
    split; [set_solver|]. intros k Hk. apply Hu. set_solver.
Qed.

Lemma resolve_forall2 (R : CommitId -> CommitId -> Prop) (m : gmap CommitId CommitId) l :
  (forall p, p ∈ l -> R p (default p (m !! p))) -> Forall2 R l (resolve m l).
Proof.
  induction l as [|p l IH]; intros HR; constructor.
  - apply HR. set_solver.
  - apply IH. intros q Hq. apply HR. set_solver.
Qed.

(** Every record the loop has made so far stays in the trace. *)
Lemma split_loop_trace_mono par leg f s A B n tx e :
  e ∈ tx_trace (snd (transform_loop (split_callback par leg f s) A n tx)) ->
  e ∈ tx_trace (snd (transform_loop (split_callback par leg f s) (A ++ B) n tx)).
Proof.
  rewrite transform_loop_app.
  destruct (split_loop_prefix par leg f s B (fst (transform_loop (split_callback par leg f s) A n tx))
              (snd (transform_loop (split_callback par leg f s) A n tx))) as (_ & _ & _ & (l & Hl) & _).
  rewrite Hl. set_solver.
Qed.

End SplitProofs.

Module SplitClaims.
Import Split SplitDefs SplitProofs Examples.

(** C2: in parallel mode the second commit's tree is
    [end_tree.merge(selected_tree, base_tree)], the merge of the original
    tree and the parent tree with the selected tree as base: at each path it
    holds the original content where the user selected nothing and the
    parent content where the user selected the change; its parents are the
    original commit's parents.  In non-parallel mode its tree is the original
    tree and its only parent is the first commit. *)
Theorem split_second_tree_and_parents env args repo t first second n repo' tr :
  get_commit (commits repo) (revision args) = Some t ->
  cmd_split env args repo = (Ok (first, second, n), repo', tr) ->
  let base_tree := parent_tree (commits repo) t in
  tree first = select env base_tree (tree t) /\
  (parallel args = true ->
     tree second = MergedTree_merge (tree t) (tree first) base_tree /\
     parent_ids second = parent_ids t /\
     forall p, (get (tree first) p = get base_tree p -> get (tree second) p = get (tree t) p) /\
               (get (tree first) p = get (tree t) p -> get (tree second) p = get base_tree p)) /\
  (parallel args = false -> tree second = tree t /\ parent_ids second = [commit_id first]).
Proof.
  intros Hget H base_tree.
  destruct (cmd_split_ok_inv _ _ _ _ _ _ _ _ _ Hget H) as (_ & _ & -> & -> & _).
  unfold split_second, split_first, split_selected, split_base_tree. cbv zeta. simpl.
  split; [done|]. split.
  - intros Hp. rewrite Hp. split; [done|]. split; [done|].
    intros p. apply merge_complement.
  - intros Hp. by rewrite Hp.
Qed.

Lemma split_second_tree_and_parents_witness :
  get_commit (commits repo_ab) 1 = Some c_a /\
  cmd_split (env_x false) (mkSplitArgs 1 true) repo_ab =
    (Ok (split_first (env_x false) repo_ab c_a, split_second (env_x false) (mkSplitArgs 1 true) repo_ab c_a, 1),
     finish (split_tx6 (env_x false) (mkSplitArgs 1 true) repo_ab c_a 1
               (snd (split_cascade (env_x false) (mkSplitArgs 1 true) repo_ab c_a))),
     tx_trace (split_tx6 (env_x false) (mkSplitArgs 1 true) repo_ab c_a 1
               (snd (split_cascade (env_x false) (mkSplitArgs 1 true) repo_ab c_a)))) /\
  tree (split_second (env_x false) (mkSplitArgs 1 true) repo_ab c_a) = <["y" := File "2"]> ∅.
Proof.
  assert (Hg : get_commit (commits repo_ab) 1 = Some c_a) by reflexivity.
  assert (Hc : cmd_split (env_x false) (mkSplitArgs 1 true) repo_ab =
    (Ok (split_first (env_x false) repo_ab c_a, split_second (env_x false) (mkSplitArgs 1 true) repo_ab c_a, 1),
     finish (split_tx6 (env_x false) (mkSplitArgs 1 true) repo_ab c_a 1
               (snd (split_cascade (env_x false) (mkSplitArgs 1 true) repo_ab c_a))),
     tx_trace (split_tx6 (env_x false) (mkSplitArgs 1 true) repo_ab c_a 1
               (snd (split_cascade (env_x false) (mkSplitArgs 1 true) repo_ab c_a))))) by (vm_compute; reflexivity).
  split; [exact Hg|]. split; [exact Hc|].
  destruct (split_second_tree_and_parents (env_x false) (mkSplitArgs 1 true) repo_ab c_a
              _ _ _ _ _ Hg Hc) as (_ & Hpar & _).
  destruct (Hpar eq_refl) as (-> & _). vm_compute. reflexivity.
Defined.
(** C3: splitting an empty commit (its tree equals its parent tree) fails
    with a user error whose hint points to [jj new], before any change: the
    repository comes back as it was and nothing was shown or recorded. *)
Theorem split_empty_commit_refused env args repo t :
  get_commit (commits repo) (revision args) = Some t ->
  is_empty (commits repo) t = true ->
  cmd_split env args repo =
    (Err (UserErrorWithHint
            ("Refusing to split empty commit " +:+ pretty (commit_id t) +:+ ".")
            empty_commit_hint), repo, []).
Proof. intros Hget He. unfold cmd_split. by rewrite Hget, He. Qed.

Lemma split_empty_commit_refused_witness :
  cmd_split env_all (mkSplitArgs 1 false) repo_empty =
    (Err (UserErrorWithHint ("Refusing to split empty commit " +:+ pretty 1 +:+ ".")
            empty_commit_hint), repo_empty, []).
Proof.
  apply (split_empty_commit_refused env_all (mkSplitArgs 1 false) repo_empty
           (mkCommit 1 [0] ∅ 1 "nothing")); vm_compute; reflexivity.
Defined.

(** C4: the first commit keeps the original change identity and the second
    gets a freshly minted one, found on no commit of the repository, so the
    two never share a change identity. *)
Theorem split_second_fresh_change_id env args repo t first second n repo' tr :
  get_commit (commits repo) (revision args) = Some t ->
  cmd_split env args repo = (Ok (first, second, n), repo', tr) ->
  change_id first = change_id t /\ change_id second <> change_id first /\
  forall c, c ∈ commits repo -> change_id second <> change_id c.
Proof.
  intros Hget H.
  destruct (cmd_split_ok_inv _ _ _ _ _ _ _ _ _ Hget H) as (_ & _ & -> & -> & _).
  split; [reflexivity|]. split.
  - apply (generate_new_change_id_fresh (commits repo ++ [split_first env repo t])).
    apply elem_of_app. right. by apply list_elem_of_singleton.
  - intros c Hc. apply generate_new_change_id_fresh. apply elem_of_app. by left.
Qed.

Lemma split_second_fresh_change_id_witness :
  change_id (split_second (env_x false) (mkSplitArgs 1 false) repo_ab c_a) <> change_id c_a.
Proof.
  assert (Hg : get_commit (commits repo_ab) (revision (mkSplitArgs 1 false)) = Some c_a)
    by reflexivity.
  destruct (split_cascade (env_x false) (mkSplitArgs 1 false) repo_ab c_a) as [n tx4] eqn:Ec.
  pose proof (cmd_split_success (env_x false) (mkSplitArgs 1 false) repo_ab c_a n tx4
                Hg eq_refl eq_refl Ec) as Hc.
  destruct (split_second_fresh_change_id _ _ _ _ _ _ _ _ _ Hg Hc) as (_ & _ & Hfresh).
  apply Hfresh. apply elem_of_cons. right. apply elem_of_cons. by left.
Defined.

(** C7: when the selection is the whole original tree a warning that the
    second commit will be empty is shown, when it is the parent tree a
    warning that the first commit will be empty is shown, and in both cases
    the split completes. *)
Theorem split_selection_warnings env args repo t :
  get_commit (commits repo) (revision args) = Some t ->
  is_empty (commits repo) t = false ->
  is_immutable env (commit_id t) = false ->
  let selected := select env (parent_tree (commits repo) t) (tree t) in
  exists first second n repo' tr,
    cmd_split env args repo = (Ok (first, second, n), repo', tr) /\
    (selected = tree t -> Warning all_selected_warning ∈ tr) /\
    (selected = parent_tree (commits repo) t -> Warning none_selected_warning ∈ tr).
Proof.
  intros Hget He Hi selected.
  destruct (split_cascade env args repo t) as [n tx4] eqn:Ec.
  pose proof (cmd_split_success env args repo t n tx4 Hget He Hi Ec) as Hc.
  destruct (split_trace_shape env args repo t n tx4 Ec) as (l & Hl & _).
  do 5 eexists. split; [exact Hc|]. rewrite Hl, split_tx3_trace.
  unfold split_tx2, split_warnings, split_selected, split_base_tree. cbn [tx_trace].
  fold selected.
  assert (Hne : tree t <> parent_tree (commits repo) t).
  { unfold is_empty in He. by apply bool_decide_eq_false in He. }
  split; intros Hs.
  - rewrite decide_True by done. set_solver.
  - rewrite decide_False by congruence. rewrite decide_True by done. set_solver.
Qed.

Lemma split_selection_warnings_witness :
  exists first second n repo' tr,
    cmd_split env_none (mkSplitArgs 1 false) repo_ab = (Ok (first, second, n), repo', tr) /\
    Warning none_selected_warning ∈ tr.
Proof.
  destruct (split_selection_warnings env_none (mkSplitArgs 1 false) repo_ab c_a)
    as (first & second & n & repo' & tr & Hc & _ & Hw);
    [reflexivity|reflexivity|reflexivity|].
  exists first, second, n, repo', tr. split; [exact Hc|]. apply Hw. reflexivity.
Defined.

(** C8: the second commit's description comes from an editing session only
    when the original description is not empty; otherwise it is empty and
    no prompt for the second commit is shown. *)
Theorem split_second_description env args repo t first second n repo' tr :
  get_commit (commits repo) (revision args) = Some t ->
  cmd_split env args repo = (Ok (first, second, n), repo', tr) ->
  (description t = "" ->
     description second = "" /\ Prompt second_instructions ∉ tr) /\
  (description t <> "" ->
     description second = edit_description env second_instructions (description t) /\
     Prompt second_instructions ∈ tr).
Proof.
  intros Hget H.
  destruct (cmd_split_ok_inv _ _ _ _ _ _ _ _ _ Hget H) as (_ & _ & -> & -> & tx4 & Ec & _ & ->).
  destruct (split_trace_shape env args repo t n tx4 Ec) as (l & Hl & Hf).
  rewrite Hl, split_tx3_trace. unfold split_tx2. cbn [tx_trace].
  unfold split_second. cbv zeta. cbn [description]. split; intros Hd.
  - rewrite !decide_True by done. split; [done|].
    intros Hin. repeat (apply elem_of_app in Hin as [Hin|Hin]).
    + unfold split_warnings in Hin.
      repeat case_decide; set_solver.
    + apply elem_of_cons in Hin as [Hin|Hin]; [discriminate|set_solver].
    + set_solver.
    + destruct (legacy_bookmark_behavior env); set_solver.
    + apply elem_of_cons in Hin as [Hin|Hin]; [discriminate|].
      rewrite Forall_forall in Hf. destruct (Hf _ Hin) as [Hr|[m Hm]]; [done|discriminate].
  - rewrite !decide_False by done. split; [done|]. set_solver.
Qed.

Lemma split_second_description_witness :
  exists first second n repo' tr,
    cmd_split (env_x false) (mkSplitArgs 1 false) repo_nodesc = (Ok (first, second, n), repo', tr) /\
    description second = "" /\ Prompt second_instructions ∉ tr.
Proof.
  assert (Hg : get_commit (commits repo_nodesc) (revision (mkSplitArgs 1 false))
               = Some (mkCommit 1 [0] t_xy 1 "")) by reflexivity.
  destruct (split_cascade (env_x false) (mkSplitArgs 1 false) repo_nodesc (mkCommit 1 [0] t_xy 1 ""))
    as [n tx4] eqn:Ec.
  pose proof (cmd_split_success (env_x false) (mkSplitArgs 1 false) repo_nodesc _ n tx4
                Hg eq_refl eq_refl Ec) as Hc.
  destruct (split_second_description _ _ _ _ _ _ _ _ _ Hg Hc) as [Hempty _].
  do 5 eexists. split; [exact Hc|]. apply Hempty. reflexivity.
Defined.
(** C1: in a well-formed repository, every child [c] of the split commit
    (an edge [pre ++ original :: post]) is rebased by the cascade to a
    recorded copy whose edge to the original is replaced by [second] when
    not parallel (whatever the legacy flag), and by [first; second] when
    parallel (in the legacy case the edge first resolves to [second], which
    is the anchor of the replacement). Each other parent of [c] is kept
    when it is not a descendant of the original, and is replaced by its own
    recorded rebased copy when it is one (a diamond). *)
Theorem split_reparents_descendants env args repo t first second n repo' tr c pre post :
  repo_wf repo = true ->
  get_commit (commits repo) (revision args) = Some t ->
  cmd_split env args repo = (Ok (first, second, n), repo', tr) ->
  c ∈ commits repo ->
  parent_ids c = pre ++ commit_id t :: post ->
  let D := map commit_id (descendants_from [commit_id t] (commits repo)) in
  let follows p p' := ((p ∉ D) /\ p' = p) \/ (p ∈ D /\ RecordRewrite p p' ∈ tr) in
  exists c' pre' post', c' ∈ commits repo' /\ RecordRewrite (commit_id c) (commit_id c') ∈ tr /\
    parent_ids c' = pre' ++ (if parallel args then [commit_id first; commit_id second]
                             else [commit_id second]) ++ post' /\
    Forall2 follows pre pre' /\ Forall2 follows post post'.
Proof.
  intros Hwf Hget Hsplit Hc Hpar. cbv zeta.
  apply andb_prop in Hwf as [Htopo _].
  destruct (cmd_split_ok_inv _ _ _ _ _ _ _ _ _ Hget Hsplit)
    as (_ & _ & -> & -> & tx4 & Hcasc & -> & ->).
  pose proof (get_commit_in _ _ _ Hget) as [Ht _].
  destruct (split_ids_fresh env args repo t) as [Hfs Hfresh].
  destruct (topo_ok_mem _ _ c Htopo Hc) as (_ & Hnd & Hpin).
  pose proof (self_not_descendant _ _ Htopo Ht) as Hself.
  assert (Hpc : forall p, p ∈ pre ++ post -> p ∈ parent_ids c) by (intros p Hp; rewrite Hpar; set_solver).
  assert (Hpp : forall p, p ∈ pre ++ post -> exists d, d ∈ commits repo /\ p = commit_id d).
  { intros p Hp. destruct (Hpin p (Hpc p Hp)) as [H|H]; [set_solver|].
    apply elem_of_map_iff in H as (d & -> & Hd). eauto. }
  rewrite Hpar in Hnd. rewrite <-Permutation_middle in Hnd.
  apply NoDup_cons in Hnd as [Htn Hnd].
  assert (HoldM : forall d, d ∈ commits repo ->
    commit_id d <= max_id (commits repo ++ [split_first env repo t; split_second env args repo t])).
  { intros d Hd. etransitivity; [by apply id_le_max_id|apply max_id_app]. }
  assert (HfM : commit_id (split_first env repo t) <=
    max_id (commits repo ++ [split_first env repo t; split_second env args repo t]))
    by (apply id_le_max_id; set_solver).
  assert (HsM : commit_id (split_second env args repo t) <=
    max_id (commits repo ++ [split_first env repo t; split_second env args repo t]))
    by (apply id_le_max_id; set_solver).
  (* The descendants listed before [c] and after it. *)
  pose proof Hc as HcXY. apply list_elem_of_split in HcXY as (X & Y & HXY).
  assert (Hdesc : descendants_from [commit_id t] (commits repo) =
     descendants_from [commit_id t] X ++ c ::
       descendants_from (commit_id c :: desc_roots [commit_id t] X) Y).
  { rewrite HXY. apply descendants_from_split. exists (commit_id t). rewrite Hpar. split; set_solver. }
  assert (Hbefore : forall p, p ∈ pre ++ post ->
     p ∈ map commit_id (descendants_from [commit_id t] (commits repo)) ->
     p ∈ map commit_id (descendants_from [commit_id t] X)).
  { intros p Hp Hin.
    apply (descendant_parent_before [commit_id t] (commits repo) X c Y p HXY Htopo); [|done].
    by apply Hpc. }
  assert (HDX : forall p, p ∈ map commit_id (descendants_from [commit_id t] X) ->
     p ∈ map commit_id (descendants_from [commit_id t] (commits repo))).
  { intros p Hp. rewrite Hdesc, map_app. set_solver. }
  (* The loop, up to the visit of [c]. *)
  rewrite (split_cascade_eq env args repo t) in Hcasc. injection Hcasc as _ Htx4.
  rewrite descendants_from_app, Hdesc, <-app_assoc, <-app_comm_cons in Htx4.
  rewrite <-(split_second_id env args repo t), <-(split_first_id env repo t) in Htx4.
  destruct (split_tx6_frame env args repo t n tx4) as (Hc6 & (l6 & Hl6 & _) & _).
  match type of Htx4 with
  | update_rewritten_references (snd (transform_loop ?cb (?DX ++ c :: ?B') 0 ?txS)) = tx4 =>
      destruct (split_loop_visit (parallel args) (legacy_bookmark_behavior env)
                  (commit_id (split_first env repo t)) (commit_id (split_second env args repo t))
                  DX c B' 0 txS) as (c' & Hc' & Hrec & Hpar');
      pose proof (split_loop_mapping_other (parallel args) (legacy_bookmark_behavior env)
        (commit_id (split_first env repo t)) (commit_id (split_second env args repo t)) DX 0 txS) as Hmo;
      pose proof (split_loop_mapping_some (parallel args) (legacy_bookmark_behavior env)
        (commit_id (split_first env repo t)) (commit_id (split_second env args repo t)) DX 0 txS) as Hms;
      pose proof (split_loop_recorded (parallel args) (legacy_bookmark_behavior env)
        (commit_id (split_first env repo t)) (commit_id (split_second env args repo t)) DX 0 txS) as Hrd;
      pose proof (split_loop_fresh (parallel args) (legacy_bookmark_behavior env)
        (commit_id (split_first env repo t)) (commit_id (split_second env args repo t)) DX 0 txS) as Hfr;
      assert (HtxSm : tx_mapping txS = tx_mapping (split_tx3 env args repo t)) by reflexivity;
      assert (HtxSc : tx_commits txS =
                commits repo ++ [split_first env repo t; split_second env args repo t])
        by (cbn [emit tx_commits]; apply split_tx3_commits);
      assert (Htr : forall e, e ∈ tx_trace (snd (transform_loop cb DX 0 txS)) ->
                    e ∈ tx_trace (split_tx6 env args repo t n tx4))
        by (intros e He; rewrite Hl6, <-Htx4; cbn [update_rewritten_references tx_trace];
            apply elem_of_app; left; by apply split_loop_trace_mono);
      assert (Hrec0 : forall k v, tx_mapping (snd (transform_loop cb DX 0 txS)) !! k = Some v ->
                        RecordRewrite k v ∈ tx_trace (split_tx6 env args repo t n tx4))
        by (intros k v Hkv; apply Htr, Hrd; [|exact Hkv];
            intros k' v'; cbn [emit tx_mapping tx_trace]; intros Hk; apply elem_of_app; left;
            by apply split_tx3_recorded);
      rewrite HtxSm, HtxSc in Hfr;
      remember (tx_mapping (snd (transform_loop cb DX 0 txS))) as m eqn:Hm in *
  end.
  cbv zeta in Hfr. rewrite <-Hm in Hfr.
  assert (H0 : forall k (v : CommitId), tx_mapping (split_tx3 env args repo t) !! k = Some v ->
     v <= max_id (commits repo ++ [split_first env repo t; split_second env args repo t])).
  { intros k v. rewrite split_tx3_mapping. case_decide; [|done]. intros Hv. injection Hv as <-.
    by destruct (legacy_bookmark_behavior env). }
  specialize (Hfr H0).
  (* What the mapping of the moment says about the parents of [c]. *)
  assert (Hkt : m !! commit_id t = Some (if legacy_bookmark_behavior env
                                         then commit_id (split_second env args repo t)
                                         else commit_id (split_first env repo t))).
  { rewrite Hmo by (intros Hx; by apply Hself, HDX). rewrite HtxSm, split_tx3_mapping.
    by rewrite decide_True. }
  assert (Hnone : forall p, p ∈ pre ++ post -> p ∉ map commit_id (descendants_from [commit_id t] X) ->
                    m !! p = None).
  { intros p Hp Hin. rewrite Hmo by done. rewrite HtxSm, split_tx3_mapping, decide_False; [done|].
    intros ->. by apply Htn. }
  assert (Hsome : forall p, p ∈ pre ++ post -> p ∈ map commit_id (descendants_from [commit_id t] X) ->
    exists v : CommitId, m !! p = Some v /\
      max_id (commits repo ++ [split_first env repo t; split_second env args repo t]) < v /\
      forall k', m !! k' = Some v -> k' = p).
  { intros p Hp Hin. destruct (Hms p (or_introl Hin)) as [v Hv]. exists v. split; [done|].
    destruct (Hfr p v Hv) as [H|H]; [|done]. exfalso.
    rewrite split_tx3_mapping, decide_False in H; [discriminate|]. intros ->. by apply Htn. }
  assert (Hvals : forall x, x ∈ resolve m (pre ++ post) ->
    (exists d, d ∈ commits repo /\ x = commit_id d) \/
    max_id (commits repo ++ [split_first env repo t; split_second env args repo t]) < x).
  { unfold resolve. intros x Hx. apply elem_of_map_iff in Hx as (p & -> & Hp).
    destruct (m !! p) as [v|] eqn:E; cbn [default from_option id].
    - right. destruct (decide (p ∈ map commit_id (descendants_from [commit_id t] X))) as [Hin|Hin].
      + destruct (Hsome p Hp Hin) as (v' & Hv' & Hlt & _). rewrite E in Hv'. by injection Hv' as ->.
      + rewrite Hnone in E by done. discriminate.
    - left. by apply Hpp. }
  assert (Hnd' : NoDup (resolve m (pre ++ post))).
  { apply resolve_nodup; [done|]. intros p v Hp Hv.
    destruct (decide (p ∈ map commit_id (descendants_from [commit_id t] X))) as [Hin|Hin].
    2: { rewrite Hnone in Hv by done. discriminate. }
    destruct (Hsome p Hp Hin) as (v' & Hv' & Hlt & Hu). rewrite Hv in Hv'. injection Hv' as <-.
    split.
    - intros Hvin. destruct (Hpp v Hvin) as (d & Hd & ->). specialize (HoldM d Hd). lia.
    - intros k _ Hk. by apply Hu. }
  exists c', (resolve m pre), (resolve m post).
  split; [|split; [|split]].
  - cbn [finish commits]. rewrite Hc6, <-Htx4. done.
  - rewrite Hl6, <-Htx4. cbn [update_rewritten_references tx_trace]. set_solver.
  - rewrite Hpar', Hpar, resolve_app.
    change (resolve m (commit_id t :: post)) with (default (commit_id t) (m !! commit_id t) :: resolve m post).
    rewrite Hkt. cbn [default from_option id].
    rewrite resolve_app in Hnd', Hvals.
    apply callback_rewriter_parents; [done| | |done].
    + intros Hx. destruct (Hvals _ Hx) as [(d & Hd & Heq)|Hlt]; [|lia].
      destruct (Hfresh d Hd). congruence.
    + intros Hx. destruct (Hvals _ Hx) as [(d & Hd & Heq)|Hlt]; [|lia].
      destruct (Hfresh d Hd). congruence.
  - split; apply resolve_forall2; intros p Hp;
      (assert (Hp' : p ∈ pre ++ post) by set_solver); clear Hp;
      (destruct (decide (p ∈ map commit_id (descendants_from [commit_id t] X))) as [Hin|Hin];
       [ right; destruct (Hsome p Hp' Hin) as (v & Hv & _); rewrite Hv;
         cbn [default from_option id]; split; [by apply HDX|]; by apply Hrec0
       | left; rewrite Hnone by done; split; [|done]; intros HD; by apply Hin, Hbefore ]).
Qed.

Lemma split_reparents_descendants_witness :
  let r := cmd_split (env_x false) (mkSplitArgs 1 false) repo_diamond in
  let D := map commit_id (descendants_from [commit_id c_a] (commits repo_diamond)) in
  let follows p p' := ((p ∉ D) /\ p' = p) \/ (p ∈ D /\ RecordRewrite p p' ∈ snd r) in
  exists c' pre' post', c' ∈ commits (snd (fst r)) /\
    RecordRewrite (commit_id c_m) (commit_id c') ∈ snd r /\
    parent_ids c' = pre' ++ (if parallel (mkSplitArgs 1 false)
                             then [commit_id (split_first (env_x false) repo_diamond c_a);
                                   commit_id (split_second (env_x false) (mkSplitArgs 1 false) repo_diamond c_a)]
                             else [commit_id (split_second (env_x false) (mkSplitArgs 1 false) repo_diamond c_a)])
                      ++ post' /\
    Forall2 follows [2] pre' /\ Forall2 follows [] post'.
Proof.
  apply (split_reparents_descendants (env_x false) (mkSplitArgs 1 false) repo_diamond c_a
           (split_first (env_x false) repo_diamond c_a)
           (split_second (env_x false) (mkSplitArgs 1 false) repo_diamond c_a)
           2 (snd (fst (cmd_split (env_x false) (mkSplitArgs 1 false) repo_diamond)))
           (snd (cmd_split (env_x false) (mkSplitArgs 1 false) repo_diamond)) c_m [2] []).
  - vm_compute. reflexivity.
  - reflexivity.
  - vm_compute. reflexivity.
  - do 3 (apply elem_of_cons; right). apply elem_of_cons. by left.
  - reflexivity.
Defined.

(** C5: with the legacy behaviour the record [original -> second] is in the
    trace strictly before the cascade starts; without it, no such record is
    ever registered. *)
Theorem split_legacy_record_before_cascade env args repo t first second n repo' tr :
  get_commit (commits repo) (revision args) = Some t ->
  cmd_split env args repo = (Ok (first, second, n), repo', tr) ->
  (legacy_bookmark_behavior env = true ->
     exists pre post, tr = pre ++ RecordRewrite (commit_id t) (commit_id second) :: post /\
       (TransformStart ∉ pre) /\ TransformStart ∈ post) /\
  (legacy_bookmark_behavior env = false -> RecordRewrite (commit_id t) (commit_id second) ∉ tr).
Proof.
  intros Hget Hsplit.
  destruct (cmd_split_ok_inv _ _ _ _ _ _ _ _ _ Hget Hsplit)
    as (_ & _ & -> & -> & tx4 & Hcasc & -> & ->).
  split.
  - intros Hleg. destruct (split_trace_shape env args repo t n tx4 Hcasc) as (l & Hl & _).
    rewrite Hl, split_tx3_trace, Hleg, <-app_assoc. simpl.
    exists (tx_trace (split_tx2 env args repo t)), (TransformStart :: l).
    split; [done|]. split; [|apply elem_of_cons; by left].
    unfold split_tx2, split_warnings. cbn [tx_trace]. rewrite list_elem_of_In.
    repeat destruct (decide _); simpl; intuition discriminate.
  - intros Hleg Hin. destruct (split_ids_fresh env args repo t) as [Hfs _].
    destruct (split_tx6_frame env args repo t n tx4) as (_ & (l6 & Hl6 & Hst) & _).
    rewrite Hl6 in Hin. apply elem_of_app in Hin as [Hin|Hin].
    2: { rewrite Forall_forall in Hst. destruct (Hst _ Hin) as [m Hm]. discriminate. }
    rewrite (split_cascade_eq env args repo t) in Hcasc. injection Hcasc as _ <-.
    cbn [update_rewritten_references tx_trace] in Hin.
    match type of Hin with context [transform_loop ?cb ?ds 0 ?txS] =>
      destruct (split_loop_prefix (parallel args) (legacy_bookmark_behavior env)
                  (commit_id (split_first env repo t)) (commit_id (split_second env args repo t))
                  ds 0 txS) as (_ & _ & _ & _ & Hr) end.
    destruct (Hr _ _ Hin) as [Hin'|Hlt].
    + cbn [emit tx_trace] in Hin'. rewrite split_tx3_trace, Hleg, app_nil_r in Hin'.
      revert Hin'. unfold split_tx2, split_warnings. cbn [tx_trace]. rewrite list_elem_of_In.
      repeat destruct (decide _); cbn [app In]; intuition congruence.
    + cbn [emit tx_commits] in Hlt. rewrite split_tx3_commits in Hlt.
      assert (Hle : commit_id (split_second env args repo t) <=
                    max_id (commits repo ++ [split_first env repo t; split_second env args repo t]))
        by (apply id_le_max_id; set_solver).
      lia.
Qed.

Lemma split_legacy_record_before_cascade_witness :
  legacy_bookmark_behavior (env_x true) = true /\
  exists pre post,
    snd (cmd_split (env_x true) (mkSplitArgs 1 false) repo_ab) =
      pre ++ RecordRewrite (commit_id c_a)
               (commit_id (split_second (env_x true) (mkSplitArgs 1 false) repo_ab c_a)) :: post /\
    (TransformStart ∉ pre) /\ TransformStart ∈ post.
Proof.
  split; [reflexivity|].
  apply (split_legacy_record_before_cascade (env_x true) (mkSplitArgs 1 false) repo_ab c_a
           (split_first (env_x true) repo_ab c_a)
           (split_second (env_x true) (mkSplitArgs 1 false) repo_ab c_a)
           1 (snd (fst (cmd_split (env_x true) (mkSplitArgs 1 false) repo_ab)))
           (snd (cmd_split (env_x true) (mkSplitArgs 1 false) repo_ab))).
  - reflexivity.
  - vm_compute. reflexivity.
  - reflexivity.
Defined.

(** C6 (as stated: every workspace not on the original keeps its pointer)
    does not hold: splitting [c_a] in [repo_ab] succeeds, and workspace
    ["other"], which was on the child [c_b], is moved by the cascade to the
    rebased copy of [c_b]. *)
Lemma split_other_workspaces_unchanged_counterexample :
  let r := cmd_split (env_x false) (mkSplitArgs 1 false) repo_ab in
  (exists f s n, fst (fst r) = Ok (f, s, n)) /\
  wc_commit_ids repo_ab !! "other" = Some 2 /\ 2 <> commit_id c_a /\
  wc_commit_ids (snd (fst r)) !! "other" <> Some 2.
Proof.
  cbv zeta. split; [do 3 eexists; vm_compute; reflexivity|].
  split; [vm_compute; reflexivity|]. split; [discriminate|].
  vm_compute. discriminate.
Qed.

(** C6, amended: after a split of [original] in a well-formed repository,
    a workspace on [original] is moved to the second commit; a workspace on
    a descendant of [original] follows the rewrite record of that
    descendant to its rebased copy; every other workspace pointer, and the
    absence of one, is unchanged. *)
Theorem split_working_copies_follow env args repo t first second n repo' tr ws :
  repo_wf repo = true ->
  get_commit (commits repo) (revision args) = Some t ->
  cmd_split env args repo = (Ok (first, second, n), repo', tr) ->
  (wc_commit_ids repo !! ws = Some (commit_id t) ->
     wc_commit_ids repo' !! ws = Some (commit_id second)) /\
  (forall w, wc_commit_ids repo !! ws = Some w -> w <> commit_id t ->
     w ∉ map commit_id (descendants_from [commit_id t] (commits repo)) ->
     wc_commit_ids repo' !! ws = Some w) /\
  (forall w, wc_commit_ids repo !! ws = Some w ->
     w ∈ map commit_id (descendants_from [commit_id t] (commits repo)) ->
     exists w', wc_commit_ids repo' !! ws = Some w' /\ RecordRewrite w w' ∈ tr) /\
  (wc_commit_ids repo !! ws = None -> wc_commit_ids repo' !! ws = None).
Proof.
  intros Hwf Hget Hsplit.
  apply andb_prop in Hwf as [Htopo Hwc]. apply bool_decide_eq_true in Hwc.
  destruct (cmd_split_ok_inv _ _ _ _ _ _ _ _ _ Hget Hsplit)
    as (_ & _ & -> & -> & tx4 & Hcasc & -> & ->).
  pose proof (get_commit_in _ _ _ Hget) as [Ht _].
  pose proof (self_not_descendant _ _ Htopo Ht) as Hself.
  destruct (split_ids_fresh env args repo t) as [Hfs Hfresh].
  destruct (split_cascade_frame env args repo t) as (Hbase & _).
  rewrite Hcasc in Hbase. cbn [snd] in Hbase.
  destruct (split_tx6_frame env args repo t n tx4) as (_ & (l6 & Hl6 & _) & Hw6).
  cbn [finish wc_commit_ids]. rewrite Hl6. setoid_rewrite Hw6. rewrite Hbase.
  rewrite (split_cascade_eq env args repo t) in Hcasc. injection Hcasc as _ <-.
  cbn [update_rewritten_references tx_wc tx_trace tx_mapping].
  match goal with |- context [transform_loop _ ?ds 0 ?txS] =>
    destruct (split_loop_prefix (parallel args) (legacy_bookmark_behavior env)
      (commit_id (split_first env repo t)) (commit_id (split_second env args repo t)) ds 0 txS)
      as (_ & Hwr & _ & _ & _);
    pose proof (split_loop_mapping_other (parallel args) (legacy_bookmark_behavior env)
      (commit_id (split_first env repo t)) (commit_id (split_second env args repo t)) ds 0 txS) as Hmo;
    pose proof (split_loop_mapping_some (parallel args) (legacy_bookmark_behavior env)
      (commit_id (split_first env repo t)) (commit_id (split_second env args repo t)) ds 0 txS) as Hms;
    pose proof (split_loop_recorded (parallel args) (legacy_bookmark_behavior env)
      (commit_id (split_first env repo t)) (commit_id (split_second env args repo t)) ds 0 txS) as Hrec
  end.
  rewrite <-(split_second_id env args repo t), <-(split_first_id env repo t).
  rewrite lookup_fmap, Hwr. cbn [emit tx_wc]. rewrite split_tx3_wc.
  split; [|split; [|split]].
  - intros H. by rewrite decide_True.
  - intros w H Hne Hnd. rewrite decide_False by congruence. rewrite H. cbn [fmap option_fmap option_map].
    rewrite Hmo.
    + cbn [emit tx_mapping]. by rewrite split_tx3_mapping, decide_False.
    + rewrite descendants_from_app, map_app. intros Hx. apply elem_of_app in Hx as [Hx|Hx]; [done|].
      apply elem_of_map_iff in Hx as (d & -> & Hd). apply descendants_from_sub in Hd.
      pose proof (map_Forall_lookup_1 _ _ _ _ Hwc H) as Hw. cbn beta in Hw.
      apply elem_of_map_iff in Hw as (d0 & Heq & Hd0). destruct (Hfresh d0 Hd0) as [Hf0 Hs0].
      apply elem_of_cons in Hd as [->|Hd]; [by apply Hf0|].
      apply list_elem_of_singleton in Hd as ->. by apply Hs0.
  - intros w H Hin. rewrite decide_False.
    + rewrite H. cbn [fmap option_fmap option_map].
      destruct (Hms w) as [w' Hw'].
      { left. rewrite descendants_from_app, map_app. apply elem_of_app. by left. }
      rewrite Hw'. exists w'. split; [done|]. apply elem_of_app. left.
      apply Hrec; [|exact Hw'].
      intros k v. cbn [emit tx_mapping tx_trace]. intros Hk. apply elem_of_app. left.
      by apply split_tx3_recorded.
    + rewrite H. intros Heq. injection Heq as ->. by apply Hself.
  - intros H. rewrite decide_False by congruence. by rewrite H.
Qed.

Lemma split_working_copies_follow_witness :
  let r := cmd_split (env_x false) (mkSplitArgs 1 false) repo_ab in
  wc_commit_ids repo_ab !! "other" = Some 2 /\
  2 ∈ map commit_id (descendants_from [commit_id c_a] (commits repo_ab)) /\
  exists w', wc_commit_ids (snd (fst r)) !! "other" = Some w' /\ RecordRewrite 2 w' ∈ snd r.
Proof.
  cbv zeta.
  assert (Hw : wc_commit_ids repo_ab !! "other" = Some 2) by (vm_compute; reflexivity).
  assert (Hd : 2 ∈ map commit_id (descendants_from [commit_id c_a] (commits repo_ab))).
  { vm_compute. apply elem_of_cons. by left. }
  split; [exact Hw|]. split; [exact Hd|].
  destruct (split_working_copies_follow (env_x false) (mkSplitArgs 1 false) repo_ab c_a
           (split_first (env_x false) repo_ab c_a)
           (split_second (env_x false) (mkSplitArgs 1 false) repo_ab c_a)
           1 (snd (fst (cmd_split (env_x false) (mkSplitArgs 1 false) repo_ab)))
           (snd (cmd_split (env_x false) (mkSplitArgs 1 false) repo_ab)) "other")
    as (_ & _ & H & _).
  - vm_compute. reflexivity.
  - reflexivity.
  - vm_compute. reflexivity.
  - exact (H 2 Hw Hd).
Defined.

End SplitClaims.

Module ColocateProofs.
Import Split(Result, Ok, Err) Colocate.

Lemma fs_write_ok io p c w w' :
  fs_write io p c w = (Ok tt, w') -> w' = mkWorld (<[p := FileNode c]> (fs w)) (status w).
Proof. unfold fs_write. destruct (write_error io p); intros H; by injection H. Qed.

Lemma fs_remove_file_status io p w : status (snd (fs_remove_file io p w)) = status w.
Proof. unfold fs_remove_file. repeat case_match; done. Qed.

(** Moving a directory touches only its source and destination paths. *)
Lemma move_directory_frame io from to w r w' :
  move_directory io from to w = (r, w') ->
  status w' = status w /\ forall p, p <> from -> p <> to -> fs w' !! p = fs w !! p.
Proof.
  unfold move_directory, fs_rename, copy_dir_recursive, remove_dir_all.
  intros H. repeat case_match; simplify_eq/=; split; try done; intros p Hf Ht;
    by rewrite ?lookup_delete_ne, ?lookup_insert_ne by congruence.
Qed.

End ColocateProofs.

Module ColocateClaims.
Import Split(Result, Ok, Err) Colocate ColocateExamples ColocateProofs.

(** C9 (as stated: a failure of the cleanup removal is reported) does not
    hold: when the move of the git store fails and the removal of the
    [git_target] file fails too, the command returns only the move error,
    prints nothing, and leaves the pointer file in place. *)
Lemma enable_cleanup_failure_reported_counterexample :
  let r := enable_repository_colocation colocated_by_dot_git io_stuck w0 in
  remove_file_error io_stuck git_target_path = Some "Operation not permitted" /\
  fst r = Err (UserErrorWithMessage move_failed_msg "Permission denied") /\
  status (snd r) = [] /\
  fs (snd r) !! git_target_path = Some (FileNode "../../../.git").
Proof. vm_compute. repeat split. Qed.

(** C9, amended: when enabling reaches the move of the git store and the
    move fails with [e], the command attempts to remove the [git_target]
    file it wrote and returns the move error [e]; the outcome of the
    removal is discarded: nothing is printed, the pointer file is gone if
    the removal succeeded and still present if it failed. *)
Theorem enable_move_failure_cleanup is_colocated io w wa wb wc e :
  is_colocated (fs w) = false ->
  path_exists w dot_git_path = false ->
  is_file w jj_repo_path = false ->
  path_exists w git_store_path = true ->
  fs_write io jj_gitignore_path gitignore_content w = (Ok tt, wa) ->
  fs_write io git_target_path "../../../.git" wa = (Ok tt, wb) ->
  move_directory io git_store_path dot_git_path wb = (Err e, wc) ->
  let w' := snd (fs_remove_file io git_target_path wc) in
  enable_repository_colocation is_colocated io w = (Err (UserErrorWithMessage move_failed_msg e), w') /\
  status w' = status w /\
  (remove_file_error io git_target_path = None -> fs w' !! git_target_path = None) /\
  (forall e', remove_file_error io git_target_path = Some e' ->
     fs w' !! git_target_path = Some (FileNode "../../../.git")).
Proof.
  intros Hc Hg Hf Hs Ha Hb Hm. cbv zeta.
  pose proof (fs_write_ok _ _ _ _ _ Ha) as ->. pose proof (fs_write_ok _ _ _ _ _ Hb) as ->.
  destruct (move_directory_frame _ _ _ _ _ _ Hm) as [Hst Hfr].
  assert (Ht : fs wc !! git_target_path = Some (FileNode "../../../.git")).
  { rewrite Hfr by done. cbn [fs]. by rewrite lookup_insert_eq. }
  split; [|split; [|split]].
  - unfold enable_repository_colocation. rewrite Hc, Hg, Hf, Hs. cbn [negb].
    rewrite Ha, Hb, Hm. by destruct (fs_remove_file io git_target_path wc).
  - rewrite fs_remove_file_status, Hst. done.
  - intros Hr. unfold fs_remove_file. rewrite Hr, Ht. cbn [snd fs]. apply lookup_delete_eq.
  - intros e' Hr. unfold fs_remove_file. rewrite Hr. done.
Qed.

Lemma enable_move_failure_cleanup_witness :
  let w' := snd (fs_remove_file io_stuck git_target_path
                   (snd (move_directory io_stuck git_store_path dot_git_path
                      (snd (fs_write io_stuck git_target_path "../../../.git"
                         (snd (fs_write io_stuck jj_gitignore_path gitignore_content w0))))))) in
  enable_repository_colocation colocated_by_dot_git io_stuck w0 =
    (Err (UserErrorWithMessage move_failed_msg "Permission denied"), w') /\
  status w' = status w0 /\
  (remove_file_error io_stuck git_target_path = None -> fs w' !! git_target_path = None) /\
  (forall e', remove_file_error io_stuck git_target_path = Some e' ->
     fs w' !! git_target_path = Some (FileNode "../../../.git")).
Proof.
  apply (enable_move_failure_cleanup colocated_by_dot_git io_stuck w0
           (snd (fs_write io_stuck jj_gitignore_path gitignore_content w0))
           (snd (fs_write io_stuck git_target_path "../../../.git"
                   (snd (fs_write io_stuck jj_gitignore_path gitignore_content w0))))
           (snd (move_directory io_stuck git_store_path dot_git_path
                   (snd (fs_write io_stuck git_target_path "../../../.git"
                      (snd (fs_write io_stuck jj_gitignore_path gitignore_content w0))))))
           "Permission denied").
  all: vm_compute; reflexivity.
Defined.

(** C10: enabling colocation on a colocated repository, and disabling it on
    a non-colocated one, return [Ok] after printing one status message,
    leave the filesystem unchanged, and running the command again does the
    same. *)
Theorem colocation_noop_when_already is_colocated io w :
  (is_colocated (fs w) = true ->
     let r := enable_repository_colocation is_colocated io w in
     fst r = Ok tt /\ fs (snd r) = fs w /\ status (snd r) = status w ++ [already_colocated_msg] /\
     enable_repository_colocation is_colocated io (snd r) =
       (Ok tt, writeln_status already_colocated_msg (snd r))) /\
  (is_colocated (fs w) = false ->
     let r := disable_repository_colocation is_colocated io w in
     fst r = Ok tt /\ fs (snd r) = fs w /\ status (snd r) = status w ++ [already_not_colocated_msg] /\
     disable_repository_colocation is_colocated io (snd r) =
       (Ok tt, writeln_status already_not_colocated_msg (snd r))).
Proof.
  split; intros H; cbv zeta.
  - unfold enable_repository_colocation. rewrite H. cbn [fst snd fs status writeln_status].
    rewrite H. auto.
  - unfold disable_repository_colocation. rewrite H. cbn [negb fst snd fs status writeln_status].
    rewrite H. auto.
Qed.

Lemma colocation_noop_when_already_witness :
  colocated_by_dot_git (fs w0) = false /\
  (let r := disable_repository_colocation colocated_by_dot_git io_stuck w0 in
   fst r = Ok tt /\ fs (snd r) = fs w0 /\ status (snd r) = status w0 ++ [already_not_colocated_msg] /\
   disable_repository_colocation colocated_by_dot_git io_stuck (snd r) =
     (Ok tt, writeln_status already_not_colocated_msg (snd r))).
Proof.
  assert (H : colocated_by_dot_git (fs w0) = false) by (vm_compute; reflexivity).
  split; [exact H|].
  apply (proj2 (colocation_noop_when_already colocated_by_dot_git io_stuck w0)). exact H.
Defined.

End ColocateClaims.

Module ColocateMoreProofs.
Import Split(Result, Ok, Err) Colocate ColocateProofs.

Ltac paths_neq :=
  unfold dot_jj_path, jj_repo_path, git_store_path, git_target_path, dot_git_path,
    jj_gitignore_path; discriminate.

Lemma move_directory_ok_inv io from to w w' :
  move_directory io from to w = (Ok tt, w') ->
  exists n, fs w !! from = Some n /\ w' = mkWorld (delete from (<[to := n]> (fs w))) (status w).
Proof.
  unfold move_directory, fs_rename, copy_dir_recursive, remove_dir_all.
  intros H. repeat case_match; simplify_eq/=; eauto.
Qed.

Lemma fs_remove_file_ok_inv io p w w' :
  fs_remove_file io p w = (Ok tt, w') -> w' = mkWorld (delete p (fs w)) (status w).
Proof. unfold fs_remove_file. intros H. repeat case_match; simplify_eq/=; done. Qed.

Lemma enable_ok_inv is_col io w w' :
  is_col (fs w) = false -> enable_repository_colocation is_col io w = (Ok tt, w') ->
  fs w !! dot_git_path = None /\
  exists n, fs w !! git_store_path = Some n /\
    fs w' = delete git_store_path (<[dot_git_path := n]>
              (<[git_target_path := FileNode "../../../.git"]>
                 (<[jj_gitignore_path := FileNode gitignore_content]> (fs w)))) /\
    status w' = status w ++
      ["Repository successfully converted into a co-located Jujutsu/git repository."].
Proof.
  intros Hc H. unfold enable_repository_colocation in H. rewrite Hc in H.
  destruct (path_exists w dot_git_path) eqn:Hg; [discriminate|].
  destruct (is_file w jj_repo_path); [discriminate|].
  destruct (path_exists w git_store_path); cbn [negb] in H; [|discriminate].
  destruct (fs_write io jj_gitignore_path gitignore_content w) as [[[]|e] wa] eqn:Ha;
    simpl in H; [|discriminate].
  destruct (fs_write io git_target_path "../../../.git" wa) as [[[]|e] wb] eqn:Hb;
    simpl in H; [|discriminate].
  destruct (move_directory io git_store_path dot_git_path wb) as [[[]|e] wc] eqn:Hm.
  2: { simpl in H. destruct (fs_remove_file io git_target_path wc). discriminate. }
  simpl in H. destruct (git_output io _) as [e|[] stderr]; [discriminate| |discriminate].
  destruct (snapshot_error io); [discriminate|]. injection H as <-.
  apply fs_write_ok in Ha as ->. apply fs_write_ok in Hb as ->.
  apply move_directory_ok_inv in Hm as (n & Hn & ->). cbn [fs status writeln_status] in *.
  unfold path_exists in Hg. apply bool_decide_eq_false in Hg. split.
  { by apply eq_None_not_Some. }
  exists n. rewrite !lookup_insert_ne in Hn by paths_neq. auto.
Qed.

Lemma disable_ok_inv is_col io w w' :
  is_col (fs w) = true -> disable_repository_colocation is_col io w = (Ok tt, w') ->
  fs w !! git_store_path = None /\
  exists n, fs w !! dot_git_path = Some n /\
    fs w' = delete jj_gitignore_path (<[git_target_path := FileNode "git"]>
              (delete dot_git_path (<[git_store_path := n]> (fs w)))) /\
    status w' = status w ++
      ["Repository successfully converted into a non co-located regular Jujutsu repository."].
Proof.
  intros Hc H. unfold disable_repository_colocation in H. rewrite Hc in H. cbn [negb] in H.
  destruct (path_exists w dot_git_path); cbn [negb] in H; [|discriminate].
  destruct (path_exists w git_store_path) eqn:Hs; [discriminate|].
  destruct (git_output io _) as [e|[] stderr]; [discriminate| |discriminate].
  destruct (move_directory io dot_git_path git_store_path w) as [[[]|e] wa] eqn:Hm;
    simpl in H; [|discriminate].
  destruct (fs_write io git_target_path "git" wa) as [[[]|e] wb] eqn:Hb; simpl in H; [|discriminate].
  apply move_directory_ok_inv in Hm as (n & Hn & ->).
  apply fs_write_ok in Hb as ->. cbn [fs status] in *.
  unfold path_exists in Hs. apply bool_decide_eq_false in Hs. split.
  { by apply eq_None_not_Some. }
  exists n. split; [done|].
  destruct (path_exists _ jj_gitignore_path) eqn:Hgi.
  - destruct (fs_remove_file _ _ _) as [[[]|e] wc] eqn:Hr; simpl in H; [|discriminate].
    apply fs_remove_file_ok_inv in Hr as ->. injection H as <-. cbn [fs status writeln_status]. auto.
  - injection H as <-. cbn [fs status writeln_status]. split; [|done].
    unfold path_exists in Hgi. apply bool_decide_eq_false in Hgi. cbn [fs] in Hgi.
    rewrite (delete_id _ jj_gitignore_path); [done|]. by apply eq_None_not_Some.
Qed.

End ColocateMoreProofs.

Module ColocateFrames.
Import Split(Result, Ok, Err) Colocate ColocateProofs.

Lemma fs_write_frame io q c w p : p <> q -> fs (snd (fs_write io q c w)) !! p = fs w !! p.
Proof. intros Hp. unfold fs_write. case_match; [done|]. cbn. by rewrite lookup_insert_ne. Qed.

Lemma fs_remove_file_frame io q w p : p <> q -> fs (snd (fs_remove_file io q w)) !! p = fs w !! p.
Proof. intros Hp. unfold fs_remove_file. repeat case_match; try done. cbn. by rewrite lookup_delete_ne. Qed.

Lemma move_directory_frame' io from to w p :
  p <> from -> p <> to -> fs (snd (move_directory io from to w)) !! p = fs w !! p.
Proof.
  intros H1 H2. destruct (move_directory io from to w) as [r w'] eqn:E.
  apply move_directory_frame in E as [_ E]. by apply E.
Qed.

End ColocateFrames.

Module ColocateExtras.
Import Split(Result, Ok, Err) Colocate ColocateExamples ColocateScenarios
  ColocateProofs ColocateMoreProofs ColocateFrames.

(** [enable_repository_colocation]: whatever its outcome, only the four
    paths [.jj/.gitignore], [git_target], the git store and [.git] can
    change. *)
Theorem enable_touches_only_colocation_paths is_col io w p :
  p <> jj_gitignore_path -> p <> git_target_path -> p <> git_store_path -> p <> dot_git_path ->
  fs (snd (enable_repository_colocation is_col io w)) !! p = fs w !! p.
Proof.
  intros H1 H2 H3 H4. unfold enable_repository_colocation.
  destruct (is_col (fs w)); [done|].
  destruct (path_exists w dot_git_path); [done|].
  destruct (is_file w jj_repo_path); [done|].
  destruct (negb _); [done|].
  pose proof (fs_write_frame io jj_gitignore_path gitignore_content w p H1) as Ha.
  destruct (fs_write io jj_gitignore_path gitignore_content w) as [[u|e] wa];
    cbn [snd] in Ha; [|exact Ha].
  pose proof (fs_write_frame io git_target_path "../../../.git" wa p H2) as Hb.
  destruct (fs_write io git_target_path _ wa) as [[u'|e] wb]; cbn [snd] in Hb; [|cbn; by rewrite Hb, Ha].
  pose proof (move_directory_frame' io git_store_path dot_git_path wb p H3 H4) as Hc.
  destruct (move_directory _ _ _ wb) as [[u''|e] wc]; cbn [snd] in Hc.
  - destruct (git_output _ _) as [|[] ?]; [| destruct (snapshot_error io)|]; cbn; by rewrite Hc, Hb, Ha.
  - pose proof (fs_remove_file_frame io git_target_path wc p H2) as Hd.
    destruct (fs_remove_file _ _ wc) as [? wd]; cbn [snd] in Hd |- *. by rewrite Hd, Hc, Hb, Ha.
Qed.

Lemma enable_touches_only_colocation_paths_witness :
  fs (snd (enable_repository_colocation colocated_by_dot_git io_fallback w_plain)) !! jj_repo_path
  = fs w_plain !! jj_repo_path.
Proof. apply enable_touches_only_colocation_paths; paths_neq. Defined.

(** [disable_repository_colocation]: whatever its outcome, only the same
    four paths can change. *)
Theorem disable_touches_only_colocation_paths is_col io w p :
  p <> jj_gitignore_path -> p <> git_target_path -> p <> git_store_path -> p <> dot_git_path ->
  fs (snd (disable_repository_colocation is_col io w)) !! p = fs w !! p.
Proof.
  intros H1 H2 H3 H4. unfold disable_repository_colocation.
  destruct (negb (is_col (fs w))); [done|].
  destruct (negb (path_exists w dot_git_path)); [done|].
  destruct (path_exists w git_store_path); [done|].
  destruct (git_output _ _) as [|[] ?]; try done.
  pose proof (move_directory_frame' io dot_git_path git_store_path w p H4 H3) as Ha.
  destruct (move_directory _ _ _ w) as [[u|e] wa]; cbn [snd] in Ha; [|exact Ha].
  pose proof (fs_write_frame io git_target_path "git" wa p H2) as Hb.
  destruct (fs_write io git_target_path _ wa) as [[u'|e] wb]; cbn [snd] in Hb; [|cbn; by rewrite Hb, Ha].
  destruct (path_exists wb jj_gitignore_path); [|cbn; by rewrite Hb, Ha].
  pose proof (fs_remove_file_frame io jj_gitignore_path wb p H1) as Hc.
  destruct (fs_remove_file _ _ wb) as [[u''|e] wc]; cbn [snd] in Hc; cbn; by rewrite Hc, Hb, Ha.
Qed.

Lemma disable_touches_only_colocation_paths_witness :
  fs (snd (disable_repository_colocation colocated_by_dot_git io_ok w_coloc)) !! jj_repo_path
  = fs w_coloc !! jj_repo_path.
Proof. apply disable_touches_only_colocation_paths; paths_neq. Defined.

(** [enable_repository_colocation]: on success from a non-colocated
    repository, [.git] was absent, the git store existed, and the result is
    exactly: [.jj/.gitignore] and [git_target] written, the store's node moved
    to [.git], one success line printed. *)
Theorem enable_success_layout is_col io w w' :
  is_col (fs w) = false -> enable_repository_colocation is_col io w = (Ok tt, w') ->
  fs w !! dot_git_path = None /\
  exists n, fs w !! git_store_path = Some n /\
    fs w' = delete git_store_path (<[dot_git_path := n]>
              (<[git_target_path := FileNode "../../../.git"]>
                 (<[jj_gitignore_path := FileNode gitignore_content]> (fs w)))) /\
    status w' = status w ++
      ["Repository successfully converted into a co-located Jujutsu/git repository."].
Proof. apply enable_ok_inv. Qed.

Lemma enable_success_layout_witness :
  let w' := snd (enable_repository_colocation colocated_by_dot_git io_fallback w_plain) in
  fs w_plain !! dot_git_path = None /\
  exists n, fs w_plain !! git_store_path = Some n /\
    fs w' = delete git_store_path (<[dot_git_path := n]>
              (<[git_target_path := FileNode "../../../.git"]>
                 (<[jj_gitignore_path := FileNode gitignore_content]> (fs w_plain)))) /\
    status w' = status w_plain ++
      ["Repository successfully converted into a co-located Jujutsu/git repository."].
Proof.
  apply (enable_success_layout colocated_by_dot_git io_fallback w_plain); vm_compute; reflexivity.
Defined.

(** [disable_repository_colocation]: on success from a colocated
    repository, the git store was absent, [.git] existed, and the result is
    exactly: [.git]'s node moved to the store, [git_target] set to [git],
    [.jj/.gitignore] removed if present, one success line printed. *)
Theorem disable_success_layout is_col io w w' :
  is_col (fs w) = true -> disable_repository_colocation is_col io w = (Ok tt, w') ->
  fs w !! git_store_path = None /\
  exists n, fs w !! dot_git_path = Some n /\
    fs w' = delete jj_gitignore_path (<[git_target_path := FileNode "git"]>
              (delete dot_git_path (<[git_store_path := n]> (fs w)))) /\
    status w' = status w ++
      ["Repository successfully converted into a non co-located regular Jujutsu repository."].
Proof. apply disable_ok_inv. Qed.

Lemma disable_success_layout_witness :
  let w' := snd (disable_repository_colocation colocated_by_dot_git io_ok w_coloc) in
  fs w_coloc !! git_store_path = None /\
  exists n, fs w_coloc !! dot_git_path = Some n /\
    fs w' = delete jj_gitignore_path (<[git_target_path := FileNode "git"]>
              (delete dot_git_path (<[git_store_path := n]> (fs w_coloc)))) /\
    status w' = status w_coloc ++
      ["Repository successfully converted into a non co-located regular Jujutsu repository."].
Proof.
  apply (disable_success_layout colocated_by_dot_git io_ok w_coloc); vm_compute; reflexivity.
Defined.

(** [enable_repository_colocation] on a non-colocated repository refuses,
    with a user error and nothing changed, when [.git] already exists, when
    the repository path is a file (a secondary workspace), or when there is
    no git store. *)
Theorem enable_refusals is_col io w :
  is_col (fs w) = false ->
  is_Some (fs w !! dot_git_path) \/ is_file w jj_repo_path = true \/ fs w !! git_store_path = None ->
  exists msg, enable_repository_colocation is_col io w = (Err (UserError msg), w).
Proof.
  intros Hc Hpre. unfold enable_repository_colocation. rewrite Hc.
  destruct (path_exists w dot_git_path) eqn:Hg; [eauto|].
  destruct (is_file w jj_repo_path) eqn:Hf; [eauto|].
  destruct (path_exists w git_store_path) eqn:Hs; cbn [negb]; [|eauto].
  exfalso. unfold path_exists in Hg, Hs.
  apply bool_decide_eq_false in Hg. apply bool_decide_eq_true in Hs.
  destruct Hpre as [H|[H|H]]; [done|discriminate|]. rewrite H in Hs. by destruct Hs.
Qed.

Lemma enable_refusals_witness :
  exists msg, enable_repository_colocation (fun _ => false) io_ok w_coloc = (Err (UserError msg), w_coloc).
Proof. apply enable_refusals; [reflexivity|]. left. vm_compute. eauto. Defined.

(** [disable_repository_colocation] on a colocated repository refuses,
    with a user error and nothing changed, when there is no [.git] or when
    the git store already exists: an existing store is never overwritten. *)
Theorem disable_refusals is_col io w :
  is_col (fs w) = true ->
  fs w !! dot_git_path = None \/ is_Some (fs w !! git_store_path) ->
  exists msg, disable_repository_colocation is_col io w = (Err (UserError msg), w).
Proof.
  intros Hc Hpre. unfold disable_repository_colocation. rewrite Hc. cbn [negb].
  destruct (path_exists w dot_git_path) eqn:Hg; cbn [negb]; [|eauto].
  destruct (path_exists w git_store_path) eqn:Hs; [eauto|].
  exfalso. unfold path_exists in Hg, Hs.
  apply bool_decide_eq_true in Hg. apply bool_decide_eq_false in Hs.
  destruct Hpre as [H|H]; [rewrite H in Hg; by destruct Hg|done].
Qed.

Lemma disable_refusals_witness :
  exists msg, disable_repository_colocation (fun _ => true) io_ok w_plain = (Err (UserError msg), w_plain).
Proof. apply disable_refusals; [reflexivity|]. left. vm_compute. reflexivity. Defined.

End ColocateExtras.

Module SplitMoreProofs.
Import Tree Split SplitDefs SplitProofs.
(** What the trace of a successful split is made of. *)
Lemma split_trace_cases env args repo t n tx4 e :
  split_cascade env args repo t = (n, tx4) ->
  e ∈ tx_trace (split_tx6 env args repo t n tx4) ->
  e ∈ split_warnings env repo t \/ e = Prompt first_instructions \/ e = Prompt second_instructions \/
  is_record e \/ e = TransformStart \/ exists m, e = Status m.
Proof.
  intros Hc Hin. destruct (split_trace_shape env args repo t n tx4 Hc) as (l & Hl & Hrec).
  rewrite Hl, split_tx3_trace in Hin. unfold split_tx2 in Hin. cbn [tx_trace] in Hin.
  rewrite !elem_of_app in Hin.
  destruct Hin as [[[Hin|[Hin|Hin]]|Hin]|Hin].
  - by left.
  - apply elem_of_cons in Hin as [->|Hin]; [tauto|].
    apply list_elem_of_singleton in Hin as ->. cbn [is_record]. tauto.
  - case_decide; [by apply elem_of_nil in Hin|]. apply list_elem_of_singleton in Hin as ->. tauto.
  - destruct (legacy_bookmark_behavior env); [|by apply elem_of_nil in Hin].
    apply list_elem_of_singleton in Hin as ->. cbn [is_record]. tauto.
  - apply elem_of_cons in Hin as [->|Hin]; [tauto|].
    rewrite Forall_forall in Hrec. destruct (Hrec e Hin); tauto.
Qed.

End SplitMoreProofs.

Module SplitExtras.
Import Tree Split Examples SplitDefs SplitProofs SplitMoreProofs.

(** [cmd_split]: the first commit keeps the split commit's parents, and its
    description is what the editor returns for the first prompt, started
    from the original description or, when that is empty, from the default
    description; the first prompt is always shown. *)
Theorem split_first_commit env args repo t first second n repo' tr :
  get_commit (commits repo) (revision args) = Some t ->
  cmd_split env args repo = (Ok (first, second, n), repo', tr) ->
  parent_ids first = parent_ids t /\
  description first = edit_description env first_instructions
    (if decide (description t = "") then default_description env else description t) /\
  Prompt first_instructions ∈ tr.
Proof.
  intros Hg H.
  destruct (cmd_split_ok_inv _ _ _ _ _ _ _ _ _ Hg H) as (_ & _ & -> & -> & tx4 & Hc & -> & ->).
  split; [done|]. split; [done|].
  destruct (split_trace_shape env args repo t n tx4 Hc) as (l & -> & _).
  rewrite split_tx3_trace. unfold split_tx2. cbn [tx_trace]. set_solver.
Qed.

Lemma split_first_commit_witness :
  parent_ids (split_first (env_x false) repo_nodesc (mkCommit 1 [0] t_xy 1 "")) = [0] /\
  description (split_first (env_x false) repo_nodesc (mkCommit 1 [0] t_xy 1 "")) =
    edit_description (env_x false) first_instructions
      (if decide (description (mkCommit 1 [0] t_xy 1 "") = "")
       then default_description (env_x false) else description (mkCommit 1 [0] t_xy 1 "")) /\
  Prompt first_instructions ∈ snd (cmd_split (env_x false) (mkSplitArgs 1 false) repo_nodesc).
Proof.
  apply (split_first_commit (env_x false) (mkSplitArgs 1 false) repo_nodesc (mkCommit 1 [0] t_xy 1 "")
           (split_first (env_x false) repo_nodesc (mkCommit 1 [0] t_xy 1 ""))
           (split_second (env_x false) (mkSplitArgs 1 false) repo_nodesc (mkCommit 1 [0] t_xy 1 "")) 0
           (snd (fst (cmd_split (env_x false) (mkSplitArgs 1 false) repo_nodesc)))
           (snd (cmd_split (env_x false) (mkSplitArgs 1 false) repo_nodesc))).
  - reflexivity.
  - vm_compute. reflexivity.
Defined.

(** [cmd_split]: the selection warnings tell the truth. When the
    all-selected warning is shown, the first commit has the original tree
    and the second commit has no changes of its own: its tree is the first
    commit's tree, or, in parallel mode, agrees on every path with the tree
    of the original parent. When the none-selected warning is shown, the
    first commit has the parent's tree. *)
Theorem split_warnings_truthful env args repo t first second n repo' tr :
  get_commit (commits repo) (revision args) = Some t ->
  cmd_split env args repo = (Ok (first, second, n), repo', tr) ->
  (Warning all_selected_warning ∈ tr ->
     tree first = tree t /\
     (parallel args = false -> tree second = tree first) /\
     (parallel args = true -> forall p, get (tree second) p = get (parent_tree (commits repo) t) p)) /\
  (Warning none_selected_warning ∈ tr -> tree first = parent_tree (commits repo) t).
Proof.
  intros Hg H.
  destruct (cmd_split_ok_inv _ _ _ _ _ _ _ _ _ Hg H) as (_ & _ & -> & -> & tx4 & Hc & -> & ->).
  assert (HW : forall w, Warning w ∈ tx_trace (split_tx6 env args repo t n tx4) ->
                 Warning w ∈ split_warnings env repo t).
  { intros w Hin. destruct (split_trace_cases env args repo t n tx4 _ Hc Hin)
      as [?|[?|[?|[?|[?|[m ?]]]]]]; done. }
  split; intros Hin; apply HW in Hin; unfold split_warnings in Hin.
  - destruct (decide (split_selected env repo t = tree t)) as [Hall|Hall].
    2: { exfalso. case_decide; [|by apply elem_of_nil in Hin].
         apply list_elem_of_singleton in Hin. injection Hin. discriminate. }
    split; [exact Hall|]. split.
    + intros Hp. unfold split_second. cbn [tree]. rewrite Hp. symmetry. exact Hall.
    + intros Hp p. unfold split_second. cbn [tree]. rewrite Hp.
      apply merge_complement. unfold split_base_tree. f_equal. exact Hall.
  - destruct (decide (split_selected env repo t = tree t)) as [Hall|Hall].
    { exfalso. apply list_elem_of_singleton in Hin. injection Hin. discriminate. }
    destruct (decide (split_selected env repo t = split_base_tree repo t)) as [Hnone|Hnone];
      [exact Hnone|by apply elem_of_nil in Hin].
Qed.

Lemma split_warnings_truthful_witness :
  let r := cmd_split env_all (mkSplitArgs 1 true) repo_ab in
  (Warning all_selected_warning ∈ snd r ->
     tree (split_first env_all repo_ab c_a) = tree c_a /\
     (parallel (mkSplitArgs 1 true) = false ->
        tree (split_second env_all (mkSplitArgs 1 true) repo_ab c_a) = tree (split_first env_all repo_ab c_a)) /\
     (parallel (mkSplitArgs 1 true) = true -> forall p,
        get (tree (split_second env_all (mkSplitArgs 1 true) repo_ab c_a)) p =
        get (parent_tree (commits repo_ab) c_a) p)) /\
  (Warning none_selected_warning ∈ snd r ->
     tree (split_first env_all repo_ab c_a) = parent_tree (commits repo_ab) c_a).
Proof.
  apply (split_warnings_truthful env_all (mkSplitArgs 1 true) repo_ab c_a
           (split_first env_all repo_ab c_a) (split_second env_all (mkSplitArgs 1 true) repo_ab c_a) 1
           (snd (fst (cmd_split env_all (mkSplitArgs 1 true) repo_ab)))
           (snd (cmd_split env_all (mkSplitArgs 1 true) repo_ab))).
  - reflexivity.
  - vm_compute. reflexivity.
Defined.

(** [cmd_split] in parallel mode: on every path where the selection took
    either the parent's or the original content, merging the first and the
    second commit over the original parent's tree gives back the original
    content. *)
Theorem split_parallel_recombines env args repo t first second n repo' tr p :
  get_commit (commits repo) (revision args) = Some t ->
  cmd_split env args repo = (Ok (first, second, n), repo', tr) ->
  parallel args = true ->
  get (tree first) p = get (parent_tree (commits repo) t) p \/ get (tree first) p = get (tree t) p ->
  get (merge3 (tree first) (tree second) (parent_tree (commits repo) t)) p = get (tree t) p.
Proof.
  intros Hg H Hpar Hsel.
  destruct (cmd_split_ok_inv _ _ _ _ _ _ _ _ _ Hg H) as (_ & _ & -> & -> & _).
  assert (Hs : tree (split_second env args repo t) =
               MergedTree_merge (tree t) (tree (split_first env repo t)) (parent_tree (commits repo) t)).
  { unfold split_second. cbn [tree]. by rewrite Hpar. }
  destruct (merge_complement (tree t) (tree (split_first env repo t)) (parent_tree (commits repo) t) p)
    as [H1 H2].
  rewrite get_merge3, Hs. unfold merge_value. destruct Hsel as [E|E].
  - rewrite decide_True by done. by apply H1.
  - rewrite H2 by done. case_decide; [congruence|]. by rewrite decide_True.
Qed.

Lemma split_parallel_recombines_witness :
  get (merge3 (tree (split_first (env_x false) repo_ab c_a))
              (tree (split_second (env_x false) (mkSplitArgs 1 true) repo_ab c_a))
              (parent_tree (commits repo_ab) c_a)) "y" = get (tree c_a) "y".
Proof.
  apply (split_parallel_recombines (env_x false) (mkSplitArgs 1 true) repo_ab c_a
           (split_first (env_x false) repo_ab c_a)
           (split_second (env_x false) (mkSplitArgs 1 true) repo_ab c_a) 1
           (snd (fst (cmd_split (env_x false) (mkSplitArgs 1 true) repo_ab)))
           (snd (cmd_split (env_x false) (mkSplitArgs 1 true) repo_ab))).
  - reflexivity.
  - vm_compute. reflexivity.
  - reflexivity.
  - left. vm_compute. reflexivity.
Defined.

End SplitExtras.
